(** * countprof: a sampling profiler for Lua (countprof.c)

    A shallow embedding of [countprof.c] and the properties of its windowed
    median, its rate controller, its call-tree aggregation and its report. *)

From Stdlib Require Import ZArith Lia String Ascii.
From stdpp Require Import base option list relations sorting strings pretty numbers.

#[local] Set Warnings "-clear-no-such-hyp".

Local Open Scope Z_scope.

(** ** Machine integers

    [int] is 32 bits and [uint64_t] is 64 bits.  Values are kept in [Z]; every
    arithmetic result is brought back into range by the conversion of its C
    type.  Overflow of a signed multiplication is undefined in ISO C; the
    embedding takes the two's complement result that the usual compilers
    produce. *)

Definition to_u64 (z : Z) : Z := z mod 2 ^ 64.

Definition to_int (z : Z) : Z := (z + 2 ^ 31) mod 2 ^ 32 - 2 ^ 31.

(** ** The windowed median (lines 61-66 and 176-222) *)

Definition WINSIZE : nat := 19.

(** The three globals [gIPMSWin], [gIPMSRing] and [gIPMSRingIdx]. *)
Record IPMS : Type := mkIPMS {
  gIPMSWin : list Z;
  gIPMSRing : list Z;
  gIPMSRingIdx : nat
}.

Definition IPMS_init : IPMS :=
  {| gIPMSWin := replicate WINSIZE 0;
     gIPMSRing := replicate WINSIZE 0;
     gIPMSRingIdx := 0%nat |}.

(** Array accesses.  An access outside [0, length a) is undefined behaviour
    in C; it is [None] here, and [None] propagates to the caller. *)
Definition rd (a : list Z) (i : nat) : option Z := a !! i.

Definition wr (a : list Z) (i : nat) (v : Z) : option (list Z) :=
  if decide (i < length a)%nat then Some (<[i:=v]> a) else None.

(** [while(gIPMSWin[i] != ipmsRem) i++;] starting at [i].  The source has no
    bound on [i]; [k] is the number of slots from [i] to the end of the
    array, so that [k = 0] is the read of [gIPMSWin[WINSIZE]]. *)
Fixpoint find_rem (k : nat) (win : list Z) (ipmsRem : Z) (i : nat) : option nat :=
  match k with
  | O => _ ← rd win i; None
  | S k' =>
      x ← rd win i;
      if decide (x ≠ ipmsRem) then find_rem k' win ipmsRem (S i) else Some i
  end.

(** The loop [while(i > 0)] of the branch [ipms < ipmsRem]. *)
Fixpoint bubble_up (ipms : Z) (win : list Z) (i : nat) : option (list Z * nat) :=
  match i with
  | O => Some (win, O)
  | S j =>
      x ← rd win j;
      if decide (ipms < x) then
        win' ← wr win (S j) x;
        bubble_up ipms win' j
      else Some (win, S j)
  end.

(** The loop [while(i < WINSIZE - 1)] of the other branch; [k] is
    [WINSIZE - 1 - i], the number of iterations the loop condition leaves. *)
Fixpoint bubble_down (k : nat) (ipms : Z) (win : list Z) (i : nat)
  : option (list Z * nat) :=
  match k with
  | O => Some (win, i)
  | S k' =>
      x ← rd win (S i);
      if decide (ipms > x) then
        win' ← wr win i x;
        bubble_down k' ipms win' (S i)
      else Some (win, i)
  end.

(** [updateIPMSWin]: the new globals and the returned median. *)
Definition updateIPMSWin (ipms : Z) (w : IPMS) : option (IPMS * Z) :=
  let idx := S (gIPMSRingIdx w) in
  let idx := if decide (WINSIZE ≤ idx)%nat then O else idx in
  ipmsRem ← rd (gIPMSRing w) idx;
  ring ← wr (gIPMSRing w) idx ipms;
  i ← find_rem WINSIZE (gIPMSWin w) ipmsRem 0;
  '(win, i) ← (if decide (ipms < ipmsRem)
               then bubble_up ipms (gIPMSWin w) i
               else bubble_down (WINSIZE - 1 - i) ipms (gIPMSWin w) i);
  win ← wr win i ipms;
  med ← rd win (WINSIZE / 2);
  Some ({| gIPMSWin := win; gIPMSRing := ring; gIPMSRingIdx := idx |}, med).

(** Feeding a sequence of samples one at a time; the medians returned, in
    order. *)
Fixpoint observe_all (xs : list Z) (w : IPMS) : option (IPMS * list Z) :=
  match xs with
  | [] => Some (w, [])
  | x :: xs' =>
      '(w1, m) ← updateIPMSWin x w;
      '(w2, ms) ← observe_all xs' w1;
      Some (w2, m :: ms)
  end.

(** States of the window reachable from the initial one. *)
Inductive IPMS_reachable : IPMS → Prop :=
  | IPMS_reach_init : IPMS_reachable IPMS_init
  | IPMS_reach_step w ipms w' med :
      IPMS_reachable w →
      updateIPMSWin ipms w = Some (w', med) →
      IPMS_reachable w'.

(** Reference: the most recent [WINSIZE] values of a history, and the middle
    element of their ascending sort. *)
Definition recent (hist : list Z) : list Z :=
  drop (length hist - WINSIZE) hist.

Definition median_of (l : list Z) : Z :=
  default 0 (merge_sort Z.le l !! (WINSIZE / 2)%nat).

(** ** The aggregated call tree (lines 68-136)

    [struct Line] and [struct Source] are singly linked lists that own each
    other: a line owns the sources called from it ([callHead], [STACK] is 1)
    and a source owns its lines ([lineHead]).  Every node is allocated once
    and linked into one list, so the heap is a tree and a pointer to a list
    is the list: [LNull] and [SNull] are [NULL], a node carries its [next].
    [malloc] is taken to succeed.  A [const char *] is its address; the host
    keeps the characters. *)

Definition ptr : Type := Z.

Inductive Line : Type :=
  | LNull
  | LCons (next : Line) (line : Z) (count : Z) (callHead : Source)
with Source : Type :=
  | SNull
  | SCons (next : Source) (source : ptr) (lineHead : Line).

Scheme Line_Source_ind := Induction for Line Sort Prop
  with Source_Line_ind := Induction for Source Sort Prop.
Combined Scheme forest_ind from Line_Source_ind, Source_Line_ind.

(** [LLFIND(line)]: the first node whose key is [line], unlinked; the result
    is that node's fields and the list without it. *)
Fixpoint LLFIND_line (line : Z) (cur : Line) : option (Z * Z * Source * Line) :=
  match cur with
  | LNull => None
  | LCons next l c ch =>
      if decide (l = line) then Some (l, c, ch, next)
      else
        '(node, rest) ← LLFIND_line line next;
        Some (node, LCons rest l c ch)
  end.

(** [getLine]: the new [*head]; its first node is the one returned. *)
Definition getLine (head : Line) (line : Z) : Line :=
  match LLFIND_line line head with
  | Some (l, c, ch, rest) => LCons rest l c ch
  | None => LCons head line 0 SNull
  end.

(** [LLFIND(source)]; the keys are compared as pointers. *)
Fixpoint LLFIND_source (source : ptr) (cur : Source) : option (ptr * Line * Source) :=
  match cur with
  | SNull => None
  | SCons next s lh =>
      if decide (s = source) then Some (s, lh, next)
      else
        '(node, rest) ← LLFIND_source source next;
        Some (node, SCons rest s lh)
  end.

Definition getSource (head : Source) (source : ptr) : Source :=
  match LLFIND_source source head with
  | Some (s, lh, rest) => SCons rest s lh
  | None => SCons head source LNull
  end.

(** ** Sampling the Lua stack (lines 138-172) *)

Definition CURRENTLINE : bool := false.
Definition CALLCHECK : bool := false.

(** What [lua_getinfo] puts in a [lua_Debug] for the options "S" and "l". *)
Record lua_Debug : Type := mk_lua_Debug {
  ar_source : ptr;
  ar_currentline : Z;
  ar_linedefined : Z
}.

Definition lineNo (ar : lua_Debug) : Z :=
  if CURRENTLINE then ar_currentline ar else ar_linedefined ar.

(** Assignments through a pointer to a node. *)
Definition Source_lineHead_upd (f : Line → Line) (p : Source) : Source :=
  match p with
  | SNull => SNull
  | SCons next s lh => SCons next s (f lh)
  end.

Definition Line_callHead_upd (f : Source → Source) (p : Line) : Line :=
  match p with
  | LNull => LNull
  | LCons next l c ch => LCons next l c (f ch)
  end.

(** [line->count++] on a [uint64_t]. *)
Definition Line_count_incr (p : Line) : Line :=
  match p with
  | LNull => LNull
  | LCons next l c ch => LCons next l (to_u64 (c + 1)) ch
  end.

(** The last two statements of [getARLine], on the list at [head]; the
    result is the new [*head].  [getARLine] returns a pointer to a line that
    its caller then writes through; [k] is that write. *)
Definition getARLine_at (ar : lua_Debug) (k : Line → Line) (head : Source) : Source :=
  Source_lineHead_upd (λ lh, k (getLine lh (lineNo ar))) (getSource head (ar_source ar)).

(** [getARLine(L, ar, depth)].  [above] are the frames that [lua_getstack]
    finds at [depth + 1], [depth + 2], ...; when there is none the list is
    [gSourceHead], otherwise it is the [callHead] of the caller's line. *)
Fixpoint getARLine (above : list lua_Debug) (ar : lua_Debug) (k : Line → Line)
    (gSourceHead : Source) : Source :=
  match above with
  | [] => getARLine_at ar k gSourceHead
  | ar1 :: above' =>
      getARLine above' ar1 (Line_callHead_upd (getARLine_at ar k)) gSourceHead
  end.

(** ** The hooks and the entry points (lines 49-59 and 224-282) *)

(** From lua.h. *)
Definition LUA_MASKCALL : Z := 1.
Definition LUA_MASKCOUNT : Z := 8.

Definition HOOKMASK : Z :=
  if CALLCHECK then Z.lor LUA_MASKCOUNT LUA_MASKCALL else LUA_MASKCOUNT.

(** The globals of the file and the hook that [lua_sethook] leaves in the
    [lua_State]. *)
Record state : Type := mkState {
  gLastCount : Z;
  gLastTime : Z;
  gIPMS : IPMS;
  gSourceHead : Source;
  L_hookmask : Z;
  L_hookcount : Z
}.

Definition state_init : state :=
  {| gLastCount := 1; gLastTime := 0; gIPMS := IPMS_init;
     gSourceHead := SNull; L_hookmask := 0; L_hookcount := 0 |}.

(** [uint64_t elapsed = cur - gLastTime; if(elapsed < 1) elapsed = 1;] *)
Definition countHook_elapsed (cur last : Z) : Z :=
  let elapsed := to_u64 (cur - last) in
  if decide (elapsed < 1) then 1 else elapsed.

(** [int ipms = (gLastCount * 1000) / elapsed;] the product is an [int], the
    division is done in [uint64_t] and its result converted to [int]. *)
Definition countHook_ipms (lastCount elapsed : Z) : Z :=
  to_int (to_u64 (to_int (lastCount * 1000)) / elapsed).

(** [countHook(L, ar, cur)]; [above] is the rest of the Lua stack and
    [t_end] what [now()] returns in the last statement. *)
Definition countHook (above : list lua_Debug) (ar : lua_Debug) (cur t_end : Z)
    (s : state) : option state :=
  let elapsed := countHook_elapsed cur (gLastTime s) in
  let ipms := countHook_ipms (gLastCount s) elapsed in
  '(w, medIpms) ← updateIPMSWin ipms (gIPMS s);
  let medIpms := if decide (medIpms < 1) then 1 else medIpms in
  Some {| gLastCount := medIpms;
          gLastTime := t_end;
          gIPMS := w;
          gSourceHead := getARLine above ar Line_count_incr (gSourceHead s);
          L_hookmask := HOOKMASK;
          L_hookcount := medIpms |}.

(** [callHook]; [cur] is what [now()] returns. *)
Definition callHook (above : list lua_Debug) (ar : lua_Debug) (cur t_end : Z)
    (s : state) : option state :=
  if decide (to_u64 (cur - gLastTime s) > 10000)
  then countHook above ar cur t_end s
  else Some s.

Inductive hook_event : Type := LUA_HOOKCALL | LUA_HOOKCOUNT | LUA_HOOKOTHER.

Definition hook (ev : hook_event) (above : list lua_Debug) (ar : lua_Debug)
    (cur t_end : Z) (s : state) : option state :=
  match ev with
  | LUA_HOOKCALL => if CALLCHECK then callHook above ar cur t_end s else Some s
  | LUA_HOOKCOUNT => countHook above ar cur t_end s
  | LUA_HOOKOTHER => Some s
  end.

Definition countprof_start (t : Z) (s : state) : state :=
  {| gLastCount := gLastCount s; gLastTime := t; gIPMS := gIPMS s;
     gSourceHead := gSourceHead s;
     L_hookmask := HOOKMASK; L_hookcount := gLastCount s |}.

Definition countprof_stop (s : state) : state :=
  {| gLastCount := gLastCount s; gLastTime := gLastTime s; gIPMS := gIPMS s;
     gSourceHead := gSourceHead s;
     L_hookmask := 0; L_hookcount := -1 |}.

(** ** The report (lines 284-338) *)

Definition nl : string := String "010"%char "".

Definition Line_line (p : Line) : Z :=
  match p with LNull => 0 | LCons _ l _ _ => l end.

(** [struct Stack]; [StNull] is [NULL], and [line] points to a node of a list
    of lines. *)
Inductive Stack : Type :=
  | StNull
  | StCons (next : Stack) (source : ptr) (line : Line).

Section Report.
(** The characters at a [const char *]. *)
Variable cstr : ptr → string.

Fixpoint dumpStack (link : Stack) : string :=
  match link with
  | StNull => ""
  | StCons next source line =>
      (match next with
       | StNull => ""
       | StCons _ _ _ => dumpStack next +:+ ";"
       end)
      +:+ cstr source +:+ ":" +:+ pretty (Line_line line)
  end.

(** [dumpSources]: the characters written to [f].  [dumpLines] is the inner
    loop [while(line)] for the source [src]. *)
Fixpoint dumpSources (source : Source) (next : Stack) : string :=
  match source with
  | SNull => ""
  | SCons snext src lineHead =>
      dumpLines lineHead src next +:+ dumpSources snext next
  end
with dumpLines (line : Line) (src : ptr) (next : Stack) : string :=
  match line with
  | LNull => ""
  | LCons lnext l c callHead =>
      let link := StCons next src line in
      (match callHead with
       | SNull => ""
       | SCons _ _ _ => dumpSources callHead link
       end)
      +:+ dumpStack link +:+ " " +:+ pretty c +:+ nl
      +:+ dumpLines lnext src next
  end.

(** [countprof_dump] for the process [pid]: the state after the call, the
    name of the file and what is written to it. *)
Definition countprof_dump (pid : Z) (s : state) : state * (string * string) :=
  (s, (pretty pid +:+ ".cp", dumpSources (gSourceHead s) StNull)).
End Report.

(** ** Specification-level definitions *)

(** The window invariant: both arrays have [WINSIZE] slots, the cursor is in
    range, the sorted view is ascending and holds the values of the ring. *)
Definition IPMS_inv (w : IPMS) : Prop :=
  length (gIPMSWin w) = WINSIZE ∧
  length (gIPMSRing w) = WINSIZE ∧
  (gIPMSRingIdx w < WINSIZE)%nat ∧
  Sorted Z.le (gIPMSWin w) ∧
  gIPMSWin w ≡ₚ gIPMSRing w.

(** The ring holds the history [hist] when, read from the slot after the
    cursor and around, it is the most recent [WINSIZE] values of the zeros
    the window starts with followed by [hist]. *)
Definition IPMS_holds (w : IPMS) (hist : list Z) : Prop :=
  drop (S (gIPMSRingIdx w)) (gIPMSRing w) ++ take (S (gIPMSRingIdx w)) (gIPMSRing w)
  = recent (replicate WINSIZE 0 ++ hist).

(** The nodes of a list of siblings, in list order. *)
Fixpoint Line_nodes (p : Line) : list (Z * Z * Source) :=
  match p with
  | LNull => []
  | LCons next l c ch => (l, c, ch) :: Line_nodes next
  end.

Fixpoint Source_nodes (p : Source) : list (ptr * Line) :=
  match p with
  | SNull => []
  | SCons next s lh => (s, lh) :: Source_nodes next
  end.

Definition Line_keys (p : Line) : list Z := (λ n, n.1.1) <$> Line_nodes p.
Definition Source_keys (p : Source) : list ptr := fst <$> Source_nodes p.

(** A frame key is a source and a line; the path of a sampled stack lists
    the keys of its frames from the root to the leaf. *)
Definition FrameKey : Type := (ptr * Z)%type.

Definition frame_key (ar : lua_Debug) : FrameKey := (ar_source ar, lineNo ar).

Definition stack_path (above : list lua_Debug) (ar : lua_Debug) : list FrameKey :=
  reverse (frame_key <$> above) ++ [frame_key ar].

(** Find-or-create of the node of a key in a list of sources, and the write
    [k] through the pointer to its line. *)
Definition find_or_create (key : FrameKey) (k : Line → Line) (head : Source) : Source :=
  Source_lineHead_upd (λ lh, k (getLine lh key.2)) (getSource head key.1).

(** Recording a path as the specification words it: find or create the node
    of each key from the root down, one level per key, and do [k] (count the
    hit) on the last node only. *)
Fixpoint record_with (k : Line → Line) (path : list FrameKey) (head : Source) : Source :=
  match path with
  | [] => head
  | key :: rest =>
      match rest with
      | [] => find_or_create key k head
      | _ :: _ => find_or_create key (Line_callHead_upd (record_with k rest)) head
      end
  end.

Definition recordSample : list FrameKey → Source → Source :=
  record_with Line_count_incr.

(** Looking a node up by its keys: the first sibling with the key, as
    [LLFIND] does. *)
Fixpoint Source_find (s : ptr) (p : Source) : option Line :=
  match p with
  | SNull => None
  | SCons next s' lh => if decide (s' = s) then Some lh else Source_find s next
  end.

Fixpoint Line_find (l : Z) (p : Line) : option (Z * Source) :=
  match p with
  | LNull => None
  | LCons next l' c ch => if decide (l' = l) then Some (c, ch) else Line_find l next
  end.

Definition node_find (key : FrameKey) (head : Source) : option (Z * Source) :=
  Source_find key.1 head ≫= Line_find key.2.

(** The hit count and the children of the node at the end of a path. *)
Fixpoint node_at (path : list FrameKey) (head : Source) : option (Z * Source) :=
  match path with
  | [] => None
  | key :: rest =>
      node_find key head ≫= λ n,
        match rest with
        | [] => Some n
        | _ :: _ => node_at rest n.2
        end
  end.

Definition count_at (path : list FrameKey) (head : Source) : option Z :=
  fst <$> node_at path head.

(** No list of siblings, at any depth, has two nodes with the same key. *)
Fixpoint Source_wf (p : Source) : Prop :=
  match p with
  | SNull => True
  | SCons next s lh => (s ∉ Source_keys next) ∧ Line_wf lh ∧ Source_wf next
  end
with Line_wf (p : Line) : Prop :=
  match p with
  | LNull => True
  | LCons next l c ch => (l ∉ Line_keys next) ∧ Source_wf ch ∧ Line_wf next
  end.

(** The number of nodes a key can name, at any depth. *)
Fixpoint Source_size (p : Source) : nat :=
  match p with
  | SNull => 0
  | SCons next s lh => Line_size lh + Source_size next
  end
with Line_size (p : Line) : nat :=
  match p with
  | LNull => 0
  | LCons next l c ch => S (Source_size ch + Line_size next)
  end.

(** A write through a pointer to a line that changes the hit count by [fc]
    and the children by [fch], and nothing else. *)
Definition writes_fields (k : Line → Line) (fc : Z → Z) (fch : Source → Source) : Prop :=
  ∀ next l c ch, k (LCons next l c ch) = LCons next l (fc c) (fch ch).

(** The report as the specification words it: one line for each node, made
    of the tokens [source:line] of the path from the root to the node joined
    by [;], a space, the hit count in decimal and a newline. *)
Definition token (cstr : ptr → string) (key : FrameKey) : string :=
  cstr key.1 +:+ ":" +:+ pretty key.2.

Definition report_line (cstr : ptr → string) (n : list FrameKey * Z) : string :=
  String.concat ";" (token cstr <$> n.1) +:+ " " +:+ pretty n.2 +:+ nl.

Definition str_concat (l : list string) : string := foldr String.append "" l.

(** Every node below [pre], with its path and its hit count: the nodes under
    a node first, then the node, then its next siblings. *)
Fixpoint Source_paths (pre : list FrameKey) (p : Source) : list (list FrameKey * Z) :=
  match p with
  | SNull => []
  | SCons next s lh => Line_paths pre s lh ++ Source_paths pre next
  end
with Line_paths (pre : list FrameKey) (s : ptr) (p : Line) : list (list FrameKey * Z) :=
  match p with
  | LNull => []
  | LCons next l c ch =>
      Source_paths (pre ++ [(s, l)]) ch ++ (pre ++ [(s, l)], c) :: Line_paths pre s next
  end.

(** The keys of a [struct Stack], outermost first. *)
Fixpoint Stack_keys (link : Stack) : list FrameKey :=
  match link with
  | StNull => []
  | StCons next s line => Stack_keys next ++ [(s, Line_line line)]
  end.

(** A run of count hooks that all sample the stack [ar :: above]; each is
    given the time at which it fires and the time at which it ends. *)
Fixpoint interrupts (ts : list (Z * Z)) (above : list lua_Debug) (ar : lua_Debug)
    (s : state) : option state :=
  match ts with
  | [] => Some s
  | (cur, t_end) :: ts' =>
      s' ← hook LUA_HOOKCOUNT above ar cur t_end s;
      interrupts ts' above ar s'
  end.

(** The scenario of the stack [mod.lua:10] calling [mod.lua:20]: every source
    pointer is the string [mod.lua], five interrupts 100 microseconds apart
    after a start at time 0. *)
Definition mod_lua : ptr → string := λ _, "mod.lua".
Definition frame10 : lua_Debug :=
  {| ar_source := 4096; ar_currentline := 12; ar_linedefined := 10 |}.
Definition frame20 : lua_Debug :=
  {| ar_source := 4096; ar_currentline := 23; ar_linedefined := 20 |}.
Definition every_100us : list (Z * Z) :=
  [(100, 100); (200, 200); (300, 300); (400, 400); (500, 500)].

(** The states of the profiler: what the entry points and the hook make of
    the initial state. *)
Inductive step : state → state → Prop :=
  | step_start t s : step s (countprof_start t s)
  | step_stop s : step s (countprof_stop s)
  | step_dump cstr pid s : step s (countprof_dump cstr pid s).1
  | step_hook ev above ar cur t_end s s' :
      hook ev above ar cur t_end s = Some s' → step s s'.

Definition reachable : state → Prop := rtc step state_init.

(** [now()]: [gettimeofday] gives [tv_sec] and [tv_usec]; the product and
    the sum are done in [uint64_t]. *)
Definition now (tv_sec tv_usec : Z) : Z :=
  to_u64 (to_u64 (1000000 * to_u64 tv_sec) + to_u64 tv_usec).

(** A run of count hooks, each with the stack it samples ([ar :: above]),
    the time at which it fires and the time at which it ends. *)
Fixpoint count_hooks (hs : list (list lua_Debug * lua_Debug * Z * Z)) (s : state)
  : option state :=
  match hs with
  | [] => Some s
  | (above, ar, cur, t_end) :: hs' =>
      s' ← hook LUA_HOOKCOUNT above ar cur t_end s;
      count_hooks hs' s'
  end.

(** Sums over a forest: [a] for each [struct Source] and [f count] for each
    [struct Line].  The hits of a forest are the sum of its counts; its
    cells are the nodes that were allocated for it. *)
Fixpoint Source_sum (a : Z) (f : Z → Z) (p : Source) : Z :=
  match p with
  | SNull => 0
  | SCons next s lh => a + Line_sum a f lh + Source_sum a f next
  end
with Line_sum (a : Z) (f : Z → Z) (p : Line) : Z :=
  match p with
  | LNull => 0
  | LCons next l c ch => f c + Source_sum a f ch + Line_sum a f next
  end.

Definition forest_hits : Source → Z := Source_sum 0 (λ c, c).
Definition forest_cells : Source → Z := Source_sum 1 (λ _, 1).

(** Every count of the forest satisfies [P]. *)
Fixpoint Source_all (P : Z → Prop) (p : Source) : Prop :=
  match p with
  | SNull => True
  | SCons next s lh => Line_all P lh ∧ Source_all P next
  end
with Line_all (P : Z → Prop) (p : Line) : Prop :=
  match p with
  | LNull => True
  | LCons next l c ch => P c ∧ Source_all P ch ∧ Line_all P next
  end.

Definition Z_sum (l : list Z) : Z := foldr Z.add 0 l.

(** The path that a count hook of a run samples. *)
Definition hook_path (h : list lua_Debug * lua_Debug * Z * Z) : list FrameKey :=
  stack_path h.1.1.1 h.1.1.2.

(** The state that five count hooks, 100 microseconds apart and sampling
    [mod.lua:10] calling [mod.lua:20], leave after [countprof_start]: the leaf
    [mod.lua:20] with 5 hits under the node [mod.lua:10] with none, and five
    estimates of 10 in the window. *)
Definition state_sampled : state :=
  {| gLastCount := 1;
     gLastTime := 500;
     gIPMS :=
       {| gIPMSWin := [0; 0; 0; 0; 0; 0; 0; 0; 0; 0; 0; 0; 0; 0; 10; 10; 10; 10; 10];
          gIPMSRing := [0; 10; 10; 10; 10; 10; 0; 0; 0; 0; 0; 0; 0; 0; 0; 0; 0; 0; 0];
          gIPMSRingIdx := 5 |};
     gSourceHead :=
       SCons SNull 4096 (LCons LNull 10 0 (SCons SNull 4096 (LCons LNull 20 5 SNull)));
     L_hookmask := LUA_MASKCOUNT;
     L_hookcount := 1 |}.

(** * Properties *)

(** ** The windowed median *)

Example updateIPMSWin_ex :
  fst <$> observe_all [5; 3; 9; -2] IPMS_init =
  Some {| gIPMSWin := [-2; 0; 0; 0; 0; 0; 0; 0; 0; 0; 0; 0; 0; 0; 0; 0; 3; 5; 9];
          gIPMSRing := [0; 5; 3; 9; -2; 0; 0; 0; 0; 0; 0; 0; 0; 0; 0; 0; 0; 0; 0];
          gIPMSRingIdx := 4 |}.
Proof. reflexivity. Qed.

Lemma wr_Some (a : list Z) i v :
  (i < length a)%nat → wr a i v = Some (<[i:=v]> a).
Proof. intros Hi. unfold wr. by rewrite decide_True. Qed.

Lemma find_rem_spec k (win : list Z) ipmsRem i :
  length win = (i + k)%nat →
  ipmsRem ∈ drop i win →
  ∃ j, find_rem k win ipmsRem i = Some j ∧ (i ≤ j < length win)%nat ∧
       win !! j = Some ipmsRem.
Proof.
  revert i. induction k as [|k IH]; intros i Hlen Hin.
  - rewrite drop_ge in Hin by lia. by apply elem_of_nil in Hin.
  - destruct (lookup_lt_is_Some_2 win i) as [x Hx]; [lia|].
    simpl. unfold rd. rewrite Hx. simpl.
    rewrite (drop_S _ _ _ Hx) in Hin.
    destruct (decide (x ≠ ipmsRem)) as [Hne|Heq].
    + apply elem_of_cons in Hin as [->|Hin]; [done|].
      destruct (IH (S i)) as (j & Hj & Hb & Hl); [lia|done|].
      exists j. split_and!; [done|lia|lia|done].
    + apply dec_stable in Heq. subst x.
      exists i. split_and!; [done|lia|lia|done].
Qed.

Lemma bubble_up_spec ipms (A : list Z) x B :
  ∃ A1 A2 y,
    A = A1 ++ A2 ∧
    Forall (λ a, ipms < a) A2 ∧
    (∀ a, list.last A1 = Some a → a ≤ ipms) ∧
    bubble_up ipms (A ++ x :: B) (length A) = Some (A1 ++ y :: A2 ++ B, length A1).
Proof.
  revert x B. induction A as [|a A IH] using rev_ind; intros x B.
  - exists [], [], x. by split_and!.
  - assert (Hrd : rd ((A ++ [a]) ++ x :: B) (length A) = Some a).
    { unfold rd. rewrite <- (assoc_L (++)). simpl. by apply list_lookup_middle. }
    destruct (decide (ipms < a)) as [Hlt|Hge].
    + destruct (IH a (a :: B)) as (A1 & A2 & y & -> & HA2 & HA1 & Hb).
      exists A1, (A2 ++ [a]), y. split_and!.
      * by rewrite (assoc_L (++)).
      * apply Forall_app. split; [done|]. by constructor.
      * done.
      * rewrite length_app, Nat.add_1_r. simpl bubble_up. rewrite Hrd. simpl.
        rewrite decide_True by done.
        rewrite wr_Some by (rewrite !length_app; simpl; lia). simpl.
        replace (<[S (length (A1 ++ A2)):=a]> (((A1 ++ A2) ++ [a]) ++ x :: B))
          with ((A1 ++ A2) ++ a :: a :: B).
        2:{ rewrite <- (assoc_L (++) (A1 ++ A2)).
            rewrite insert_app_r_alt by lia.
            replace (S (length (A1 ++ A2)) - length (A1 ++ A2))%nat
              with 1%nat by lia. done. }
        rewrite Hb. by rewrite <- !(assoc_L (++)).
    + exists (A ++ [a]), [], x. split_and!.
      * by rewrite (right_id_L [] (++)).
      * constructor.
      * intros a'. rewrite list.last_snoc. intros [= <-]. lia.
      * rewrite length_app, Nat.add_1_r. simpl bubble_up. rewrite Hrd. simpl.
        by rewrite decide_False by done.
Qed.

Lemma bubble_down_spec ipms (B : list Z) A x :
  ∃ B1 B2 y,
    B = B1 ++ B2 ∧
    Forall (λ b, b < ipms) B1 ∧
    (∀ b, head B2 = Some b → ipms ≤ b) ∧
    bubble_down (length B) ipms (A ++ x :: B) (length A) =
      Some (A ++ B1 ++ y :: B2, (length A + length B1)%nat).
Proof.
  revert A x. induction B as [|b B IH]; intros A x.
  - exists [], [], x. split_and!; [done|constructor|done|].
    simpl. by rewrite Nat.add_0_r.
  - assert (Hrd : rd (A ++ x :: b :: B) (S (length A)) = Some b).
    { unfold rd. rewrite (cons_middle x A), (assoc_L (++)).
      apply list_lookup_middle. rewrite length_app. simpl. lia. }
    destruct (decide (ipms > b)) as [Hgt|Hle].
    + destruct (IH (A ++ [b]) b) as (B1 & B2 & y & -> & HB1 & HB2 & Hb).
      exists (b :: B1), B2, y. split_and!.
      * done.
      * constructor; [lia|done].
      * done.
      * simpl bubble_down. rewrite Hrd. simpl. rewrite decide_True by done.
        rewrite wr_Some by (rewrite !length_app; simpl; lia). simpl.
        replace (<[length A:=b]> (A ++ x :: b :: B1 ++ B2))
          with ((A ++ [b]) ++ b :: B1 ++ B2).
        2:{ rewrite <- !(assoc_L (++)). rewrite insert_app_r_alt by lia.
            by rewrite Nat.sub_diag. }
        rewrite (length_app A [b]) in Hb. simpl length in Hb.
        rewrite Nat.add_1_r in Hb.
        rewrite Hb. rewrite <- !(assoc_L (++)). simpl. do 2 f_equal. lia.
    + exists [], (b :: B), x. split_and!.
      * done.
      * constructor.
      * intros b'. simpl. intros [= <-]. lia.
      * simpl bubble_down. rewrite Hrd. simpl. rewrite decide_False by done.
        by rewrite Nat.add_0_r.
Qed.

Lemma sorted_insert_mid (L R : list Z) v :
  StronglySorted Z.le (L ++ R) →
  (∀ a, a ∈ L → a ≤ v) → (∀ b, b ∈ R → v ≤ b) →
  StronglySorted Z.le (L ++ v :: R).
Proof.
  rewrite !StronglySorted_app, StronglySorted_cons, list.Forall_forall.
  intros (HLR & HL & HR) Ha Hb. split_and!; [|done|done|done].
  intros x1 x2 H1 [->|H2]%elem_of_cons; auto.
Qed.

Lemma sorted_remove_mid (L R : list Z) x :
  StronglySorted Z.le (L ++ x :: R) → StronglySorted Z.le (L ++ R).
Proof.
  rewrite !StronglySorted_app, StronglySorted_cons.
  intros (HLR & HL & _ & HR). split_and!; [|done|done].
  intros x1 x2 H1 H2. apply HLR; [done|]. by apply elem_of_cons; right.
Qed.

Lemma sorted_le_last (l : list Z) x a :
  StronglySorted Z.le l → list.last l = Some a → x ∈ l → x ≤ a.
Proof.
  intros Hs [l' ->]%last_Some Hx.
  apply elem_of_app in Hx as [Hx|Hx].
  - eapply StronglySorted_app_1_elem_of; [done|done|]. by apply list_elem_of_singleton.
  - apply list_elem_of_singleton in Hx. lia.
Qed.

Lemma sorted_head_le (l : list Z) x h :
  StronglySorted Z.le l → head l = Some h → x ∈ l → h ≤ x.
Proof.
  destruct l as [|h' l]; [done|]. simpl. intros Hs [= ->] Hx.
  apply StronglySorted_cons in Hs as [Hh _].
  apply elem_of_cons in Hx as [->|Hx]; [lia|].
  rewrite list.Forall_forall in Hh. by apply Hh.
Qed.

Lemma perm_replace (A B R1 R2 : list Z) x v :
  A ++ x :: B ≡ₚ R1 ++ x :: R2 → v :: A ++ B ≡ₚ R1 ++ v :: R2.
Proof.
  rewrite <- !Permutation_middle. intros H%(inj (cons x)).
  by rewrite H.
Qed.

Ltac bind_step := cbn [mbind option_bind].

Lemma updateIPMSWin_step ipms w :
  IPMS_inv w →
  ∃ w' med ipmsRem i,
    updateIPMSWin ipms w = Some (w', med) ∧
    IPMS_inv w' ∧
    gIPMSRingIdx w' =
      (if decide (WINSIZE ≤ S (gIPMSRingIdx w))%nat then O else S (gIPMSRingIdx w)) ∧
    gIPMSRing w !! gIPMSRingIdx w' = Some ipmsRem ∧
    gIPMSRing w' = <[gIPMSRingIdx w' := ipms]> (gIPMSRing w) ∧
    gIPMSWin w' !! (WINSIZE / 2)%nat = Some med ∧
    find_rem WINSIZE (gIPMSWin w) ipmsRem 0 = Some i ∧ (i < WINSIZE)%nat ∧
    ∃ win1 j,
      (if decide (ipms < ipmsRem)
       then bubble_up ipms (gIPMSWin w) i
       else bubble_down (WINSIZE - 1 - i) ipms (gIPMSWin w) i) = Some (win1, j) ∧
      length win1 = WINSIZE ∧ (j < WINSIZE)%nat.
Proof.
  destruct w as [win ring idx]. intros (Hlw & Hlr & Hidx & Hs & Hp).
  cbn [gIPMSWin gIPMSRing gIPMSRingIdx] in *.
  unfold updateIPMSWin. cbn [gIPMSWin gIPMSRing gIPMSRingIdx].
  set (idx' := if decide (WINSIZE ≤ S idx)%nat then O else S idx).
  assert (Hidx' : (idx' < WINSIZE)%nat).
  { unfold idx'. case_decide; unfold WINSIZE in *; lia. }
  destruct (lookup_lt_is_Some_2 ring idx') as [ipmsRem Hrem]; [lia|].
  assert (Hin : ipmsRem ∈ drop 0 win).
  { rewrite drop_0, Hp. by eapply list_elem_of_lookup_2. }
  destruct (find_rem_spec WINSIZE win ipmsRem 0) as (i & Hfind & Hi & Hwi);
    [done|done|].
  pose proof (take_drop_middle _ _ _ Hwi) as Hwin.
  pose proof (take_drop_middle _ _ _ Hrem) as Hring.
  set (A := take i win) in *. set (B := drop (S i) win) in *.
  assert (HlA : length A = i) by (unfold A; rewrite length_take; lia).
  assert (HlB : length B = (WINSIZE - 1 - i)%nat)
    by (unfold B; rewrite length_drop; lia).
  assert (Hss : StronglySorted Z.le (A ++ ipmsRem :: B)).
  { rewrite Hwin. by apply Sorted_StronglySorted; [apply _|]. }
  assert (Hfin : ∀ L R, L ++ R = A ++ B →
            (∀ a, a ∈ L → a ≤ ipms) → (∀ b, b ∈ R → ipms ≤ b) →
            ∀ y, ∃ w' med,
              (win' ← wr (L ++ y :: R) (length L) ipms;
               med ← rd win' (WINSIZE / 2);
               Some ({| gIPMSWin := win'; gIPMSRing := <[idx':=ipms]> ring;
                        gIPMSRingIdx := idx' |}, med)) = Some (w', med) ∧
              IPMS_inv w' ∧ gIPMSRingIdx w' = idx' ∧
              gIPMSRing w' = <[idx':=ipms]> ring ∧
              gIPMSWin w' !! (WINSIZE / 2)%nat = Some med).
  { intros L R HLR HL HR y.
    assert (Hlen : length (L ++ ipms :: R) = WINSIZE).
    { rewrite length_app. simpl. rewrite <- Hlw, <- Hwin, !length_app. simpl.
      apply (f_equal length) in HLR. rewrite !length_app in HLR. lia. }
    destruct (lookup_lt_is_Some_2 (L ++ ipms :: R) (WINSIZE / 2)) as [med Hmed].
    { rewrite Hlen. unfold WINSIZE. simpl. lia. }
    exists {| gIPMSWin := L ++ ipms :: R; gIPMSRing := <[idx':=ipms]> ring;
              gIPMSRingIdx := idx' |}, med.
    split.
    - rewrite wr_Some by (rewrite length_app; simpl; lia). bind_step.
      rewrite insert_app_r_alt by lia. rewrite Nat.sub_diag.
      cbn [insert list_insert]. unfold rd. rewrite Hmed. done.
    - unfold IPMS_inv.
      split_and!; cbn [gIPMSWin gIPMSRing gIPMSRingIdx]; try done.
      + by rewrite length_insert.
      + apply StronglySorted_Sorted, sorted_insert_mid; [|done|done].
        rewrite HLR. by eapply sorted_remove_mid.
      + rewrite <- Permutation_middle, HLR.
        rewrite insert_take_drop by lia.
        apply perm_replace with ipmsRem. by rewrite Hwin, Hring. }
  assert (Hcases : ∃ L R y, L ++ R = A ++ B ∧
            (∀ a, a ∈ L → a ≤ ipms) ∧ (∀ b, b ∈ R → ipms ≤ b) ∧
            (if decide (ipms < ipmsRem)
             then bubble_up ipms win i
             else bubble_down (WINSIZE - 1 - i) ipms win i)
            = Some (L ++ y :: R, length L)).
  { destruct (decide (ipms < ipmsRem)) as [Hlt|Hge].
    - destruct (bubble_up_spec ipms A ipmsRem B)
        as (A1 & A2 & y & HA & HA2 & HA1 & Hb).
      exists A1, (A2 ++ B), y. split_and!.
      + by rewrite HA, (assoc_L (++)).
      + intros a Ha.
        destruct (list.last A1) as [la|] eqn:Hla.
        * transitivity la; [|by apply HA1].
          eapply sorted_le_last; [|done|done].
          rewrite HA, <- (assoc_L (++)) in Hss.
          by eapply StronglySorted_app_1_l.
        * apply last_None in Hla. subst A1. by apply elem_of_nil in Ha.
      + intros b [Hb2|Hb2]%elem_of_app.
        * rewrite list.Forall_forall in HA2. apply HA2 in Hb2. lia.
        * apply StronglySorted_app_1_r, StronglySorted_cons in Hss as [Hss _].
          rewrite list.Forall_forall in Hss. apply Hss in Hb2. lia.
      + rewrite <- Hwin, <- HlA. done.
    - destruct (bubble_down_spec ipms B A ipmsRem)
        as (B1 & B2 & y & HB & HB1 & HB2 & Hb).
      exists (A ++ B1), B2, y. split_and!.
      + by rewrite HB, (assoc_L (++)).
      + intros a [Ha|Ha]%elem_of_app.
        * assert (a ≤ ipmsRem); [|lia].
          eapply StronglySorted_app_1_elem_of; [done|done|]. by left.
        * rewrite list.Forall_forall in HB1. apply HB1 in Ha. lia.
      + intros b Hb2.
        destruct (head B2) as [h|] eqn:Hh.
        * transitivity h; [by apply HB2|].
          eapply sorted_head_le; [|done|done].
          apply StronglySorted_app_1_r, StronglySorted_cons in Hss as [_ Hss].
          rewrite HB in Hss. by eapply StronglySorted_app_1_r.
        * apply head_None in Hh. subst B2. by apply elem_of_nil in Hb2.
      + rewrite <- Hwin at 1. rewrite <- HlB, <- HlA at 1. rewrite Hb.
        rewrite length_app, <- (assoc_L (++)). done. }
  destruct Hcases as (L & R & y & HLR & HL & HR & Hloop).
  destruct (Hfin L R HLR HL HR y) as (w' & med & Hrun & Hinv & Hi' & Hr' & Hm).
  assert (Hlen : length (L ++ y :: R) = WINSIZE).
  { rewrite <- Hlw, <- Hwin, !length_app. simpl.
    apply (f_equal length) in HLR. rewrite !length_app in HLR. lia. }
  exists w', med, ipmsRem, i. rewrite Hi', Hr'.
  split_and!; try done; [|lia|].
  2:{ exists (L ++ y :: R), (length L). split_and!; [done|done|].
      rewrite length_app in Hlen. simpl in Hlen. lia. }
  replace (rd ring idx') with (Some ipmsRem) by (symmetry; exact Hrem).
  bind_step. rewrite wr_Some by lia. bind_step.
  rewrite Hfind. bind_step.
  rewrite Hloop. bind_step. done.
Qed.

Lemma IPMS_init_inv : IPMS_inv IPMS_init.
Proof.
  unfold IPMS_inv, IPMS_init. simpl. split_and!; try done.
  - unfold WINSIZE. lia.
  - repeat constructor; lia.
Qed.

Lemma IPMS_reachable_inv w : IPMS_reachable w → IPMS_inv w.
Proof.
  induction 1 as [|w ipms w' med _ IH Hstep]; [apply IPMS_init_inv|].
  destruct (updateIPMSWin_step ipms w IH) as (w1 & m1 & r & i & Hrun & Hinv & _).
  congruence.
Qed.

Lemma recent_snoc (hist : list Z) x :
  (WINSIZE ≤ length hist)%nat →
  recent (hist ++ [x]) = drop 1 (recent hist) ++ [x].
Proof.
  intros Hlen. unfold recent, WINSIZE in *. rewrite length_app. simpl.
  rewrite drop_drop, drop_app_le by lia. do 2 f_equal. lia.
Qed.

Lemma ring_rotate_insert (ring : list Z) idx x :
  length ring = WINSIZE → (idx < WINSIZE)%nat →
  let idx' := if decide (WINSIZE ≤ S idx)%nat then O else S idx in
  drop (S idx') (<[idx':=x]> ring) ++ take (S idx') (<[idx':=x]> ring)
  = drop 1 (drop (S idx) ring ++ take (S idx) ring) ++ [x].
Proof.
  intros Hlen Hidx idx'.
  assert (Hidx' : (idx' < length ring)%nat).
  { unfold idx'. case_decide; unfold WINSIZE in *; lia. }
  rewrite insert_take_drop by done.
  assert (HlT : length (take idx' ring ++ [x]) = S idx').
  { rewrite length_app, length_take. simpl. lia. }
  rewrite (cons_middle x (take idx' ring)), (assoc_L (++)).
  rewrite drop_app_length', take_app_length' by done.
  rewrite !(assoc_L (++)). f_equal.
  unfold idx'. case_decide.
  - assert (idx = 18%nat) as -> by (unfold WINSIZE in *; lia).
    rewrite (drop_ge ring 19), (take_ge ring 19) by (unfold WINSIZE in *; lia).
    rewrite take_0. simpl. by rewrite (right_id_L [] (++)).
  - rewrite drop_app_le by (rewrite length_drop; lia).
    rewrite drop_drop. do 2 f_equal. lia.
Qed.

Lemma IPMS_holds_step w hist x w' med :
  IPMS_inv w → IPMS_holds w hist →
  updateIPMSWin x w = Some (w', med) →
  IPMS_holds w' (hist ++ [x]).
Proof.
  intros Hinv Hh Hrun.
  destruct (updateIPMSWin_step x w Hinv)
    as (w1 & m1 & r & i & Hrun1 & _ & Hi & _ & Hr & _).
  rewrite Hrun in Hrun1. injection Hrun1 as <- <-.
  destruct Hinv as (_ & Hlr & Hidx & _).
  unfold IPMS_holds in *. rewrite Hr, Hi.
  rewrite (ring_rotate_insert _ _ _ Hlr Hidx), Hh.
  rewrite (assoc_L (++)), recent_snoc; [done|].
  rewrite length_app, length_replicate. lia.
Qed.

Lemma IPMS_init_holds : IPMS_holds IPMS_init [].
Proof. reflexivity. Qed.

Lemma IPMS_win_sorted_recent w hist :
  IPMS_inv w → IPMS_holds w hist →
  gIPMSWin w = merge_sort Z.le (recent (replicate WINSIZE 0 ++ hist)).
Proof.
  intros (_ & _ & _ & Hs & Hp) Hh.
  apply (Sorted_unique Z.le); [done|apply (Sorted_merge_sort Z.le)|].
  rewrite merge_sort_Permutation, <- Hh, Hp.
  rewrite (comm (++)). by rewrite take_drop.
Qed.

Lemma observe_all_spec xs : ∀ w hist,
  IPMS_inv w → IPMS_holds w hist →
  ∃ w' ms,
    observe_all xs w = Some (w', ms) ∧
    IPMS_inv w' ∧ IPMS_holds w' (hist ++ xs) ∧
    length ms = length xs ∧
    ∀ k, (k < length xs)%nat →
      ms !! k = Some (median_of (recent (replicate WINSIZE 0 ++ hist ++ take (S k) xs))).
Proof.
  induction xs as [|x xs IH]; intros w hist Hinv Hh.
  - exists w, []. rewrite (right_id_L [] (++)). split_and!; try done.
    simpl. lia.
  - destruct (updateIPMSWin_step x w Hinv)
      as (w1 & m & r & i & Hrun & Hinv1 & _ & _ & _ & Hm & _).
    pose proof (IPMS_holds_step _ _ _ _ _ Hinv Hh Hrun) as Hh1.
    destruct (IH w1 (hist ++ [x]) Hinv1 Hh1) as (w2 & ms & Hrun2 & Hinv2 & Hh2 & Hl & Hms).
    exists w2, (m :: ms). split_and!.
    + cbn [observe_all]. rewrite Hrun. bind_step. rewrite Hrun2. done.
    + done.
    + by rewrite <- (assoc_L (++)) in Hh2.
    + simpl. by rewrite Hl.
    + intros [|k] Hk.
      * change ((m :: ms) !! 0%nat) with (Some m).
        change (take 1 (x :: xs)) with [x]. f_equal. unfold median_of.
        rewrite <- (IPMS_win_sorted_recent w1) by done. by rewrite Hm.
      * change ((m :: ms) !! S k) with (ms !! k).
        change (take (S (S k)) (x :: xs)) with ([x] ++ take (S k) xs).
        simpl in Hk. rewrite Hms by lia.
        by rewrite <- (assoc_L (++)).
Qed.

Lemma recent_past_zeros (xs : list Z) :
  (WINSIZE ≤ length xs)%nat →
  recent (replicate WINSIZE 0 ++ xs) = recent xs.
Proof.
  intros Hlen. unfold recent.
  rewrite length_app, length_replicate.
  rewrite drop_app_ge by (rewrite length_replicate; lia).
  rewrite length_replicate. f_equal. lia.
Qed.

(** C1.  Feeding any sequence [xs] to [updateIPMSWin] from the initial window
    succeeds, and the value returned by insertion number [k] is the element
    at index 9 of the ascending sort of the 19 values then in the window:
    the most recent 19 of the 19 initial zeros followed by the values fed so
    far, which are the last 19 values fed once 19 of them have been fed.
    This covers every sequence of more than 19 values. *)
Theorem updateIPMSWin_median (xs : list Z) :
  ∃ w ms,
    observe_all xs IPMS_init = Some (w, ms) ∧
    length ms = length xs ∧
    ∀ k, (k < length xs)%nat →
      ms !! k = Some (median_of (recent (replicate WINSIZE 0 ++ take (S k) xs))) ∧
      ((WINSIZE ≤ S k)%nat →
       ms !! k = Some (median_of (recent (take (S k) xs)))).
Proof.
  destruct (observe_all_spec xs IPMS_init [] IPMS_init_inv IPMS_init_holds)
    as (w & ms & Hrun & _ & _ & Hlen & Hms).
  exists w, ms. split_and!; [done|done|].
  intros k Hk. specialize (Hms k Hk).
  change ([] ++ take (S k) xs) with (take (S k) xs) in Hms. split; [done|].
  intros Hfull. rewrite Hms. rewrite recent_past_zeros; [done|].
  rewrite length_take. lia.
Qed.

Example updateIPMSWin_median_ex :
  snd <$> observe_all
    [5; 3; 9; 7; 1; 8; 2; 6; 4; 10; 12; 11; 15; 14; 13; 20; 19; 18; 17; 16; 30; -4]
    IPMS_init
  = Some [0; 0; 0; 0; 0; 0; 0; 0; 0; 1; 2; 3; 4; 5; 6; 7; 8; 9; 10; 11; 12; 12].
Proof. reflexivity. Qed.

(** C5.  In every state reachable from the initial all-zero window, a call of
    [updateIPMSWin] returns, and afterwards [gIPMSWin] is ascending and is a
    permutation of [gIPMSRing], both of 19 values. *)
Theorem updateIPMSWin_sorted_perm (w : IPMS) (ipms : Z) :
  IPMS_reachable w →
  ∃ w' med,
    updateIPMSWin ipms w = Some (w', med) ∧
    Sorted Z.le (gIPMSWin w') ∧
    gIPMSWin w' ≡ₚ gIPMSRing w' ∧
    length (gIPMSWin w') = WINSIZE ∧ length (gIPMSRing w') = WINSIZE.
Proof.
  intros Hr%IPMS_reachable_inv.
  destruct (updateIPMSWin_step ipms w Hr)
    as (w' & med & _ & _ & Hrun & (Hlw & Hlr & _ & Hs & Hp) & _).
  by exists w', med.
Qed.

Lemma updateIPMSWin_sorted_perm_witness :
  ∃ w' med,
    updateIPMSWin 7 IPMS_init = Some (w', med) ∧
    Sorted Z.le (gIPMSWin w') ∧
    gIPMSWin w' ≡ₚ gIPMSRing w' ∧
    length (gIPMSWin w') = WINSIZE ∧ length (gIPMSRing w') = WINSIZE.
Proof. apply (updateIPMSWin_sorted_perm IPMS_init 7). apply IPMS_reach_init. Defined.

(** C10.  In every state reachable from the initial window, with every array
    access checked against the bounds of its 19-element array: the scan for
    the evicted value stops at an index below 19, the repair loop returns
    with its index below 19, and the whole call returns, so that no access
    of [updateIPMSWin] is out of bounds. *)
Theorem updateIPMSWin_in_bounds (w : IPMS) (ipms : Z) :
  IPMS_reachable w →
  length (gIPMSWin w) = WINSIZE ∧ length (gIPMSRing w) = WINSIZE ∧
  ∃ idx ipmsRem i win1 j r,
    idx = (if decide (WINSIZE ≤ S (gIPMSRingIdx w))%nat then O
           else S (gIPMSRingIdx w)) ∧
    (idx < WINSIZE)%nat ∧
    rd (gIPMSRing w) idx = Some ipmsRem ∧
    find_rem WINSIZE (gIPMSWin w) ipmsRem 0 = Some i ∧ (i < WINSIZE)%nat ∧
    (if decide (ipms < ipmsRem)
     then bubble_up ipms (gIPMSWin w) i
     else bubble_down (WINSIZE - 1 - i) ipms (gIPMSWin w) i) = Some (win1, j) ∧
    length win1 = WINSIZE ∧ (j < WINSIZE)%nat ∧
    updateIPMSWin ipms w = Some r.
Proof.
  intros Hr%IPMS_reachable_inv.
  destruct (updateIPMSWin_step ipms w Hr)
    as (w' & med & ipmsRem & i & Hrun & Hinv' & Hidx & Hrem & _ & _ & Hfind & Hi
        & win1 & j & Hloop & Hl1 & Hj).
  destruct Hr as (Hlw & Hlr & _).
  split_and!; [done|done|].
  exists (gIPMSRingIdx w'), ipmsRem, i, win1, j, (w', med).
  split_and!; try done.
  by destruct Hinv' as (_ & _ & ? & _).
Qed.

Lemma updateIPMSWin_in_bounds_witness :
  length (gIPMSWin IPMS_init) = WINSIZE ∧ length (gIPMSRing IPMS_init) = WINSIZE ∧
  ∃ idx ipmsRem i win1 j r,
    idx = (if decide (WINSIZE ≤ S (gIPMSRingIdx IPMS_init))%nat then O
           else S (gIPMSRingIdx IPMS_init)) ∧
    (idx < WINSIZE)%nat ∧
    rd (gIPMSRing IPMS_init) idx = Some ipmsRem ∧
    find_rem WINSIZE (gIPMSWin IPMS_init) ipmsRem 0 = Some i ∧ (i < WINSIZE)%nat ∧
    (if decide (42 < ipmsRem)
     then bubble_up 42 (gIPMSWin IPMS_init) i
     else bubble_down (WINSIZE - 1 - i) 42 (gIPMSWin IPMS_init) i) = Some (win1, j) ∧
    length win1 = WINSIZE ∧ (j < WINSIZE)%nat ∧
    updateIPMSWin 42 IPMS_init = Some r.
Proof. apply (updateIPMSWin_in_bounds IPMS_init 42). apply IPMS_reach_init. Defined.

(** ** Find-or-create on a list of siblings *)

Lemma LLFIND_line_nodes line head :
  match LLFIND_line line head with
  | Some (l, c, ch, rest) =>
      ∃ i, list_find (λ n, n.1.1 = line) (Line_nodes head) = Some (i, (l, c, ch)) ∧
           Line_nodes rest = delete i (Line_nodes head)
  | None => list_find (λ n, n.1.1 = line) (Line_nodes head) = None
  end.
Proof.
  induction head as [|next IH l c ch]; [done|].
  simpl. destruct (decide (l = line)) as [->|Hne].
  - by exists 0%nat.
  - destruct (LLFIND_line line next) as [[[[l' c'] ch'] rest]|]; simpl.
    + destruct IH as (i & -> & Hrest). exists (S i). simpl. by rewrite Hrest.
    + by rewrite IH.
Qed.

Lemma LLFIND_source_nodes source head :
  match LLFIND_source source head with
  | Some (s, lh, rest) =>
      ∃ i, list_find (λ n, n.1 = source) (Source_nodes head) = Some (i, (s, lh)) ∧
           Source_nodes rest = delete i (Source_nodes head)
  | None => list_find (λ n, n.1 = source) (Source_nodes head) = None
  end.
Proof.
  induction head as [|next IH s lh]; [done|].
  simpl. destruct (decide (s = source)) as [->|Hne].
  - by exists 0%nat.
  - destruct (LLFIND_source source next) as [[[s' lh'] rest]|]; simpl.
    + destruct IH as (i & -> & Hrest). exists (S i). simpl. by rewrite Hrest.
    + by rewrite IH.
Qed.

(** C8.  [getLine] and [getSource] move to front: when a node with the key is
    in the list, the first such node becomes the head with its fields as they
    were and the other nodes keep their order; when none is, a node with the
    key, no hits and no children (for a source: no lines) is put in front of
    the list.  In both cases the list holds the nodes it held, and the new
    node if one was made. *)
Theorem getLine_getSource_move_to_front (lines : Line) (line : Z)
    (sources : Source) (source : ptr) :
  Line_nodes (getLine lines line) =
    match list_find (λ n, n.1.1 = line) (Line_nodes lines) with
    | Some (i, n) => n :: delete i (Line_nodes lines)
    | None => (line, 0, SNull) :: Line_nodes lines
    end ∧
  Line_nodes (getLine lines line) ≡ₚ
    (if decide (line ∈ Line_keys lines) then Line_nodes lines
     else (line, 0, SNull) :: Line_nodes lines) ∧
  Source_nodes (getSource sources source) =
    match list_find (λ n, n.1 = source) (Source_nodes sources) with
    | Some (i, n) => n :: delete i (Source_nodes sources)
    | None => (source, LNull) :: Source_nodes sources
    end ∧
  Source_nodes (getSource sources source) ≡ₚ
    (if decide (source ∈ Source_keys sources) then Source_nodes sources
     else (source, LNull) :: Source_nodes sources).
Proof.
  assert (HL : Line_nodes (getLine lines line) =
    match list_find (λ n, n.1.1 = line) (Line_nodes lines) with
    | Some (i, n) => n :: delete i (Line_nodes lines)
    | None => (line, 0, SNull) :: Line_nodes lines
    end).
  { unfold getLine. pose proof (LLFIND_line_nodes line lines) as H.
    destruct (LLFIND_line line lines) as [[[[l c] ch] rest]|].
    - destruct H as (i & -> & Hrest). simpl. by rewrite Hrest.
    - by rewrite H. }
  assert (HS : Source_nodes (getSource sources source) =
    match list_find (λ n, n.1 = source) (Source_nodes sources) with
    | Some (i, n) => n :: delete i (Source_nodes sources)
    | None => (source, LNull) :: Source_nodes sources
    end).
  { unfold getSource. pose proof (LLFIND_source_nodes source sources) as H.
    destruct (LLFIND_source source sources) as [[[s lh] rest]|].
    - destruct H as (i & -> & Hrest). simpl. by rewrite Hrest.
    - by rewrite H. }
  split_and!; [done| |done|].
  - rewrite HL.
    destruct (list_find _ (Line_nodes lines)) as [[i n]|] eqn:Hf.
    + apply list_find_Some in Hf as (Hi & Hn & _).
      rewrite decide_True.
      * symmetry. by apply delete_Permutation.
      * unfold Line_keys. apply list_elem_of_fmap. exists n.
        split; [done|]. by eapply list_elem_of_lookup_2.
    + rewrite decide_False; [done|].
      apply list_find_None in Hf. unfold Line_keys.
      intros (n & Hk & Hn)%list_elem_of_fmap.
      rewrite list.Forall_forall in Hf. by apply (Hf n).
  - rewrite HS.
    destruct (list_find _ (Source_nodes sources)) as [[i n]|] eqn:Hf.
    + apply list_find_Some in Hf as (Hi & Hn & _).
      rewrite decide_True.
      * symmetry. by apply delete_Permutation.
      * unfold Source_keys. apply list_elem_of_fmap. exists n.
        split; [done|]. by eapply list_elem_of_lookup_2.
    + rewrite decide_False; [done|].
      apply list_find_None in Hf. unfold Source_keys.
      intros (n & Hk & Hn)%list_elem_of_fmap.
      rewrite list.Forall_forall in Hf. by apply (Hf n).
Qed.

(** ** Recording a sampled stack *)

Lemma LLFIND_line_find line head :
  match LLFIND_line line head with
  | Some (l, c, ch, rest) =>
      l = line ∧ Line_find line head = Some (c, ch) ∧
      (∀ x, x ∈ Line_keys rest → x ∈ Line_keys head) ∧
      (Line_wf head → (line ∉ Line_keys rest) ∧ Line_wf rest ∧ Source_wf ch)
  | None => Line_find line head = None
  end.
Proof.
  induction head as [|next IH l c ch]; [done|].
  simpl. destruct (decide (l = line)) as [->|Hne].
  - split_and!; [done|done| |].
    + intros x Hx. unfold Line_keys. simpl. by apply elem_of_cons; right.
    + by intros (? & ? & ?).
  - destruct (LLFIND_line line next) as [[[[l' c'] ch'] rest]|]; simpl; [|done].
    destruct IH as (-> & Hfind & Hsub & Hwf). split_and!; [done|done| |].
    + intros x. unfold Line_keys in *. simpl.
      rewrite !elem_of_cons. naive_solver.
    + intros (Hl & Hch & Hnext). destruct (Hwf Hnext) as (Hnin & Hrest & Hch').
      split_and!; [|naive_solver|done|done|done].
      unfold Line_keys in *. simpl. rewrite elem_of_cons. naive_solver.
Qed.

Lemma LLFIND_source_find source head :
  match LLFIND_source source head with
  | Some (s, lh, rest) =>
      s = source ∧ Source_find source head = Some lh ∧
      (∀ x, x ∈ Source_keys rest → x ∈ Source_keys head) ∧
      (Source_wf head → (source ∉ Source_keys rest) ∧ Source_wf rest ∧ Line_wf lh)
  | None => Source_find source head = None
  end.
Proof.
  induction head as [|next IH s lh]; [done|].
  simpl. destruct (decide (s = source)) as [->|Hne].
  - split_and!; [done|done| |].
    + intros x Hx. unfold Source_keys. simpl. by apply elem_of_cons; right.
    + by intros (? & ? & ?).
  - destruct (LLFIND_source source next) as [[[s' lh'] rest]|]; simpl; [|done].
    destruct IH as (-> & Hfind & Hsub & Hwf). split_and!; [done|done| |].
    + intros x. unfold Source_keys in *. simpl.
      rewrite !elem_of_cons. naive_solver.
    + intros (Hs & Hlh & Hnext). destruct (Hwf Hnext) as (Hnin & Hrest & Hlh').
      split_and!; [|naive_solver|done|done|done].
      unfold Source_keys in *. simpl. rewrite elem_of_cons. naive_solver.
Qed.

Lemma getLine_spec lh line :
  ∃ rest,
    getLine lh line =
      LCons rest line (default (0, SNull) (Line_find line lh)).1
                      (default (0, SNull) (Line_find line lh)).2 ∧
    (Line_wf lh →
     (line ∉ Line_keys rest) ∧ Line_wf rest ∧
     Source_wf (default (0, SNull) (Line_find line lh)).2).
Proof.
  unfold getLine. pose proof (LLFIND_line_find line lh) as H.
  destruct (LLFIND_line line lh) as [[[[l c] ch] rest]|].
  - destruct H as (-> & -> & _ & Hwf). by exists rest.
  - rewrite H. exists lh. split; [done|]. intros Hwf. split_and!; [|done..].
    clear Hwf. induction lh as [|next IH l c ch].
    + unfold Line_keys. simpl. apply not_elem_of_nil.
    + simpl in H. destruct (decide (l = line)); [done|].
      unfold Line_keys in *. simpl. rewrite elem_of_cons. naive_solver.
Qed.

Lemma getSource_spec head source :
  ∃ rest,
    getSource head source =
      SCons rest source (default LNull (Source_find source head)) ∧
    (Source_wf head →
     (source ∉ Source_keys rest) ∧ Source_wf rest ∧
     Line_wf (default LNull (Source_find source head))).
Proof.
  unfold getSource. pose proof (LLFIND_source_find source head) as H.
  destruct (LLFIND_source source head) as [[[s lh] rest]|].
  - destruct H as (-> & -> & _ & Hwf). by exists rest.
  - rewrite H. exists head. split; [done|]. intros Hwf. split_and!; [|done..].
    clear Hwf. induction head as [|next IH s lh].
    + unfold Source_keys. simpl. apply not_elem_of_nil.
    + simpl in H. destruct (decide (s = source)); [done|].
      unfold Source_keys in *. simpl. rewrite elem_of_cons. naive_solver.
Qed.

Lemma find_or_create_spec key k fc fch head :
  writes_fields k fc fch →
  ∃ srest lrest,
    find_or_create key k head =
      SCons srest key.1
        (LCons lrest key.2 (fc (default (0, SNull) (node_find key head)).1)
                           (fch (default (0, SNull) (node_find key head)).2)) ∧
    (Source_wf head →
     (key.1 ∉ Source_keys srest) ∧ Source_wf srest ∧
     (key.2 ∉ Line_keys lrest) ∧ Line_wf lrest ∧
     Source_wf (default (0, SNull) (node_find key head)).2).
Proof.
  intros Hk. unfold find_or_create.
  destruct (getSource_spec head key.1) as (srest & -> & Hswf).
  set (lh := default LNull (Source_find key.1 head)) in *.
  destruct (getLine_spec lh key.2) as (lrest & Hl & Hlwf).
  assert (Hnode : node_find key head = Line_find key.2 lh).
  { unfold node_find, lh. by destruct (Source_find key.1 head). }
  exists srest, lrest. simpl. rewrite Hl, Hk, Hnode.
  split; [done|]. intros Hwf. naive_solver.
Qed.

Lemma node_find_find_or_create key k fc fch head :
  writes_fields k fc fch →
  node_find key (find_or_create key k head) =
    Some (fc (default (0, SNull) (node_find key head)).1,
          fch (default (0, SNull) (node_find key head)).2).
Proof.
  intros Hk.
  destruct (find_or_create_spec key k fc fch head Hk) as (srest & lrest & -> & _).
  unfold node_find. simpl. rewrite decide_True by done. simpl.
  by rewrite decide_True.
Qed.

Lemma find_or_create_wf key k fc fch head :
  writes_fields k fc fch →
  (∀ ch, Source_wf ch → Source_wf (fch ch)) →
  Source_wf head → Source_wf (find_or_create key k head).
Proof.
  intros Hk Hfch Hwf.
  destruct (find_or_create_spec key k fc fch head Hk) as (srest & lrest & -> & H).
  simpl. naive_solver.
Qed.

Lemma writes_fields_count_incr :
  writes_fields Line_count_incr (λ c, to_u64 (c + 1)) id.
Proof. by intros next l c ch. Qed.

Lemma writes_fields_callHead_upd f :
  writes_fields (Line_callHead_upd f) id f.
Proof. by intros next l c ch. Qed.

Lemma Line_callHead_upd_ext f g p :
  (∀ x, f x = g x) → Line_callHead_upd f p = Line_callHead_upd g p.
Proof. intros H. destruct p; simpl; [done|]. by rewrite H. Qed.

Lemma find_or_create_ext key k k' head :
  (∀ p, k p = k' p) → find_or_create key k head = find_or_create key k' head.
Proof.
  intros H. unfold find_or_create.
  destruct (getSource head key.1); simpl; [done|]. by rewrite H.
Qed.

Lemma record_with_snoc k key path : ∀ head,
  path ≠ [] →
  record_with k (path ++ [key]) head =
  record_with (Line_callHead_upd (find_or_create key k)) path head.
Proof.
  induction path as [|a [|b path] IH]; intros head Hne; [done| |].
  - simpl. apply find_or_create_ext. intros p.
    by apply Line_callHead_upd_ext.
  - change (record_with k ((a :: b :: path) ++ [key]) head)
      with (find_or_create a
              (Line_callHead_upd (record_with k ((b :: path) ++ [key]))) head).
    change (record_with (Line_callHead_upd (find_or_create key k))
              (a :: b :: path) head)
      with (find_or_create a
              (Line_callHead_upd
                 (record_with (Line_callHead_upd (find_or_create key k))
                    (b :: path))) head).
    apply find_or_create_ext. intros p. apply Line_callHead_upd_ext.
    intros x. by apply IH.
Qed.

Lemma stack_path_nonempty above ar : stack_path above ar ≠ [].
Proof. unfold stack_path. by destruct (reverse (frame_key <$> above)). Qed.

(** [getARLine] records the path of the stack, from the root down. *)
Lemma getARLine_record_with above : ∀ ar k head,
  getARLine above ar k head = record_with k (stack_path above ar) head.
Proof.
  induction above as [|ar1 above IH]; intros ar k head; [done|].
  simpl. rewrite IH. unfold stack_path at 2.
  rewrite fmap_cons, reverse_cons.
  change (reverse (frame_key <$> above) ++ [frame_key ar1])
    with (stack_path above ar1).
  rewrite record_with_snoc by apply stack_path_nonempty. done.
Qed.

(** What [countHook] does to the forest is [recordSample] on the path of the
    stack. *)
Lemma getARLine_recordSample above ar head :
  getARLine above ar Line_count_incr head = recordSample (stack_path above ar) head.
Proof. apply getARLine_record_with. Qed.

Lemma node_at_SNull path : node_at path SNull = None.
Proof. by destruct path. Qed.

Lemma node_at_cons key b rest head :
  node_at (key :: b :: rest) head =
  node_at (b :: rest) (default (0, SNull) (node_find key head)).2.
Proof.
  cbn [node_at]. destruct (node_find key head) as [n|]; [done|].
  simpl. by destruct (node_find b SNull).
Qed.

Lemma node_at_record_with k fc fch path : ∀ head,
  writes_fields k fc fch → path ≠ [] →
  node_at path (record_with k path head) =
    Some (fc (default (0, SNull) (node_at path head)).1,
          fch (default (0, SNull) (node_at path head)).2).
Proof.
  induction path as [|key [|b rest] IH]; intros head Hk Hne; [done| |].
  - simpl. rewrite (node_find_find_or_create _ _ _ _ _ Hk). simpl.
    by destruct (node_find key head).
  - rewrite (node_at_cons key b rest head).
    change (record_with k (key :: b :: rest) head)
      with (find_or_create key (Line_callHead_upd (record_with k (b :: rest))) head).
    rewrite node_at_cons.
    rewrite (node_find_find_or_create _ _ _ _ _ (writes_fields_callHead_upd _)).
    simpl. by apply IH.
Qed.

Lemma count_at_record_with_prefix k fc fch q r : ∀ head,
  writes_fields k fc fch → q ≠ [] → r ≠ [] →
  count_at q (record_with k (q ++ r) head) = Some (default 0 (count_at q head)).
Proof.
  unfold count_at.
  induction q as [|key [|b q] IH]; intros head Hk Hq Hr; [done| |].
  - destruct r as [|c r]; [done|].
    change (record_with k ([key] ++ c :: r) head)
      with (find_or_create key (Line_callHead_upd (record_with k (c :: r))) head).
    simpl.
    rewrite (node_find_find_or_create _ _ _ _ _ (writes_fields_callHead_upd _)).
    simpl. by destruct (node_find key head).
  - change (record_with k ((key :: b :: q) ++ r) head)
      with (find_or_create key
              (Line_callHead_upd (record_with k ((b :: q) ++ r))) head).
    rewrite !node_at_cons.
    rewrite (node_find_find_or_create _ _ _ _ _ (writes_fields_callHead_upd _)).
    simpl. by apply IH.
Qed.

Lemma record_with_wf k fc fch path : ∀ head,
  writes_fields k fc fch →
  (∀ ch, Source_wf ch → Source_wf (fch ch)) →
  Source_wf head → Source_wf (record_with k path head).
Proof.
  induction path as [|key [|b rest] IH]; intros head Hk Hfch Hwf; [done| |].
  - by eapply find_or_create_wf.
  - change (record_with k (key :: b :: rest) head)
      with (find_or_create key (Line_callHead_upd (record_with k (b :: rest))) head).
    eapply find_or_create_wf; [apply writes_fields_callHead_upd| |done].
    intros ch Hch. by apply IH.
Qed.

Lemma to_u64_succ c n : to_u64 (to_u64 (c + n) + 1) = to_u64 (c + (n + 1)).
Proof. unfold to_u64. rewrite Zplus_mod_idemp_l. f_equal. lia. Qed.

(** C7.  Recording the stack [ar :: above] [N] times in a forest without
    duplicate siblings leaves the forest without duplicate siblings at every
    level, adds [N] to the hit count of the node at the end of the path (a
    [uint64_t], so [N] itself when the node is new and [N < 2^64]), and gives
    every node on the way the count it had before (0 when it is new). *)
Theorem getARLine_same_path (above : list lua_Debug) (ar : lua_Debug)
    (head : Source) (N : nat) :
  Source_wf head → (0 < N)%nat →
  let path := stack_path above ar in
  let head' := Nat.iter N (getARLine above ar Line_count_incr) head in
  Source_wf head' ∧
  count_at path head' = Some (to_u64 (default 0 (count_at path head) + Z.of_nat N)) ∧
  (count_at path head = None → Z.of_nat N < 2 ^ 64 →
   count_at path head' = Some (Z.of_nat N)) ∧
  ∀ q r, q ≠ [] → r ≠ [] → path = q ++ r →
    count_at q head' = Some (default 0 (count_at q head)).
Proof.
  intros Hwf HN path head'. unfold head'. clear head'.
  cut (Source_wf (Nat.iter N (getARLine above ar Line_count_incr) head) ∧
       count_at path (Nat.iter N (getARLine above ar Line_count_incr) head) =
         Some (to_u64 (default 0 (count_at path head) + Z.of_nat N)) ∧
       ∀ q r, q ≠ [] → r ≠ [] → path = q ++ r →
         count_at q (Nat.iter N (getARLine above ar Line_count_incr) head) =
         Some (default 0 (count_at q head))).
  { intros (H1 & H2 & H3). split_and!; [done|done| |done].
    intros Hnone Hlt. rewrite H2, Hnone. simpl. unfold to_u64.
    by rewrite Z.mod_small by lia. }
  destruct N as [|N]; [lia|]. clear HN.
  induction N as [|N (IHwf & IHc & IHq)].
  - simpl. rewrite getARLine_record_with. fold path. split_and!.
    + eapply record_with_wf; [apply writes_fields_count_incr|done|done].
    + unfold count_at.
      rewrite (node_at_record_with _ _ _ _ _ writes_fields_count_incr)
        by apply stack_path_nonempty.
      simpl. by destruct (node_at path head).
    + intros q r Hq Hr ->.
      by apply (count_at_record_with_prefix _ _ _ _ _ _ writes_fields_count_incr).
  - rewrite Nat.iter_succ.
    set (h := Nat.iter (S N) (getARLine above ar Line_count_incr) head) in *.
    rewrite getARLine_record_with. fold path. split_and!.
    + eapply record_with_wf; [apply writes_fields_count_incr|done|done].
    + unfold count_at in *.
      rewrite (node_at_record_with _ _ _ _ _ writes_fields_count_incr)
        by apply stack_path_nonempty.
      simpl. destruct (node_at path h) as [[c ch]|]; [|done].
      simpl in *. injection IHc as ->. rewrite to_u64_succ. do 2 f_equal. lia.
    + intros q r Hq Hr Hp. rewrite Hp.
      rewrite (count_at_record_with_prefix _ _ _ _ _ _ writes_fields_count_incr)
        by done.
      by rewrite (IHq q r).
Qed.

Lemma getARLine_same_path_witness :
  let path := stack_path [frame10] frame20 in
  let head' := Nat.iter 3 (getARLine [frame10] frame20 Line_count_incr) SNull in
  Source_wf head' ∧
  count_at path head' = Some (to_u64 (default 0 (count_at path SNull) + Z.of_nat 3)) ∧
  (count_at path SNull = None → Z.of_nat 3 < 2 ^ 64 →
   count_at path head' = Some (Z.of_nat 3)) ∧
  ∀ q r, q ≠ [] → r ≠ [] → path = q ++ r →
    count_at q head' = Some (default 0 (count_at q SNull)).
Proof. apply (getARLine_same_path [frame10] frame20 SNull 3); [exact I|lia]. Defined.

Example getARLine_same_path_ex :
  let head' := Nat.iter 3 (getARLine [frame10] frame20 Line_count_incr) SNull in
  head' = SCons SNull 4096 (LCons LNull 10 0 (SCons SNull 4096 (LCons LNull 20 3 SNull))) ∧
  count_at [(4096, 10); (4096, 20)] head' = Some 3 ∧
  count_at [(4096, 10)] head' = Some 0.
Proof. by vm_compute. Qed.

(** ** The report *)

Lemma append_assoc (a b c : string) : (a +:+ b) +:+ c = a +:+ (b +:+ c).
Proof. induction a as [|x a IH]; [done|]. exact (f_equal (String x) IH). Qed.

Lemma str_concat_app l1 l2 :
  str_concat (l1 ++ l2) = str_concat l1 +:+ str_concat l2.
Proof.
  induction l1 as [|x l1 IH]; [done|].
  simpl. unfold str_concat in *. simpl. rewrite IH.
  by rewrite append_assoc.
Qed.

Lemma concat_snoc sep (l : list string) t :
  l ≠ [] → String.concat sep (l ++ [t]) = String.concat sep l +:+ sep +:+ t.
Proof.
  induction l as [|x [|y l] IH]; intros Hne; [done|done|].
  change (String.concat sep ((x :: y :: l) ++ [t]))
    with (x +:+ sep +:+ String.concat sep ((y :: l) ++ [t])).
  rewrite IH by done.
  change (String.concat sep (x :: y :: l))
    with (x +:+ sep +:+ String.concat sep (y :: l)).
  by rewrite !append_assoc.
Qed.

Lemma Stack_keys_nonempty next s line : Stack_keys (StCons next s line) ≠ [].
Proof. simpl. by destruct (Stack_keys next). Qed.

Lemma dumpStack_spec cstr next s line :
  dumpStack cstr (StCons next s line) =
  String.concat ";" (token cstr <$> Stack_keys (StCons next s line)).
Proof.
  revert s line. induction next as [|next' IH s' line']; intros s line; [done|].
  change (dumpStack cstr (StCons (StCons next' s' line') s line))
    with ((dumpStack cstr (StCons next' s' line') +:+ ";")
          +:+ cstr s +:+ ":" +:+ pretty (Line_line line)).
  rewrite IH.
  change (Stack_keys (StCons (StCons next' s' line') s line))
    with (Stack_keys (StCons next' s' line') ++ [(s, Line_line line)]).
  rewrite fmap_app.
  change (token cstr <$> [(s, Line_line line)]) with [token cstr (s, Line_line line)].
  rewrite concat_snoc.
  - unfold token. simpl. by rewrite !append_assoc.
  - intros H%fmap_nil_inv. by eapply Stack_keys_nonempty.
Qed.

Lemma dump_spec cstr :
  (∀ line src next,
     dumpLines cstr line src next =
     str_concat (report_line cstr <$> Line_paths (Stack_keys next) src line)) ∧
  (∀ source next,
     dumpSources cstr source next =
     str_concat (report_line cstr <$> Source_paths (Stack_keys next) source)).
Proof.
  apply forest_ind.
  - done.
  - intros lnext IHnext l c ch IHch src next.
    cbn [dumpLines Line_paths].
    rewrite fmap_app, str_concat_app, fmap_cons.
    change (str_concat (?x :: ?l)) with (x +:+ str_concat l).
    rewrite <- IHnext.
    replace (match ch with
             | SNull => ""
             | SCons _ _ _ => dumpSources cstr ch (StCons next src (LCons lnext l c ch))
             end)
      with (str_concat (report_line cstr <$> Source_paths (Stack_keys next ++ [(src, l)]) ch)).
    2:{ destruct ch; [done|]. by rewrite IHch. }
    rewrite dumpStack_spec. unfold report_line. cbn [fst snd Stack_keys Line_line].
    by rewrite !append_assoc.
  - done.
  - intros snext IHnext src lh IHlh next.
    cbn [dumpSources Source_paths].
    by rewrite fmap_app, str_concat_app, IHlh, IHnext.
Qed.

Lemma paths_length :
  (∀ line pre src, length (Line_paths pre src line) = Line_size line) ∧
  (∀ source pre, length (Source_paths pre source) = Source_size source).
Proof.
  apply forest_ind; try done.
  - intros lnext IHnext l c ch IHch pre src. simpl.
    rewrite length_app. simpl. rewrite IHch, IHnext. lia.
  - intros snext IHnext src lh IHlh pre. simpl.
    rewrite length_app. by rewrite IHlh, IHnext.
Qed.

Lemma count_at_cons key q head :
  count_at (key :: q) head =
  node_find key head ≫= λ n,
    match q with [] => Some n.1 | _ :: _ => count_at q n.2 end.
Proof.
  unfold count_at. cbn [node_at].
  destruct (node_find key head) as [n|]; [|done]. by destruct q.
Qed.

(** Where a node of the enumeration is, and that looking its path up finds
    its count, in a forest without duplicate siblings. *)
Lemma paths_lookup :
  (∀ line, Line_wf line → ∀ pre src p c,
     (p, c) ∈ Line_paths pre src line →
     ∃ l q, p = pre ++ (src, l) :: q ∧ l ∈ Line_keys line ∧
       (Line_find l line ≫= λ n,
          match q with [] => Some n.1 | _ :: _ => count_at q n.2 end) = Some c) ∧
  (∀ source, Source_wf source → ∀ pre p c,
     (p, c) ∈ Source_paths pre source →
     ∃ key q, p = pre ++ key :: q ∧ key.1 ∈ Source_keys source ∧
       count_at (key :: q) source = Some c).
Proof.
  apply forest_ind.
  - intros _ pre src p c Hin. by apply elem_of_nil in Hin.
  - intros lnext IHnext l c0 ch IHch (Hl & Hch & Hnext) pre src p c Hin.
    cbn [Line_paths] in Hin.
    apply elem_of_app in Hin as [Hin|Hin]; [|apply elem_of_cons in Hin as [Heq|Hin]].
    + destruct (IHch Hch _ _ _ Hin) as (key & q & -> & _ & Hc).
      exists l, (key :: q). split_and!.
      * by rewrite <- (assoc_L (++)).
      * unfold Line_keys. simpl. by left.
      * simpl. by rewrite decide_True.
    + injection Heq as -> ->. exists l, []. split_and!; [done| |].
      * unfold Line_keys. simpl. by left.
      * simpl. by rewrite decide_True.
    + destruct (IHnext Hnext _ _ _ _ Hin) as (l' & q & -> & Hl' & Hc).
      exists l', q. split_and!; [done| |].
      * unfold Line_keys in *. simpl. by right.
      * simpl. rewrite decide_False; [done|]. by intros ->.
  - intros _ pre p c Hin. by apply elem_of_nil in Hin.
  - intros snext IHnext s lh IHlh (Hs & Hlh & Hnext) pre p c Hin.
    cbn [Source_paths] in Hin. apply elem_of_app in Hin as [Hin|Hin].
    + destruct (IHlh Hlh _ _ _ _ Hin) as (l & q & -> & _ & Hc).
      exists (s, l), q. split_and!; [done| |].
      * unfold Source_keys. simpl. by left.
      * rewrite count_at_cons. unfold node_find. simpl.
        rewrite decide_True by done. simpl.
        destruct (Line_find l lh) as [n|]; [|done]. done.
    + destruct (IHnext Hnext _ _ _ Hin) as (key & q & -> & Hk & Hc).
      exists key, q. split_and!; [done| |].
      * unfold Source_keys in *. simpl. by right.
      * rewrite count_at_cons in *. unfold node_find in *. simpl.
        rewrite decide_False; [done|]. by intros ->.
Qed.

Lemma paths_NoDup :
  (∀ line, Line_wf line → ∀ pre src, NoDup (Line_paths pre src line).*1) ∧
  (∀ source, Source_wf source → ∀ pre, NoDup (Source_paths pre source).*1).
Proof.
  destruct paths_lookup as [HL HS].
  apply forest_ind.
  - intros _ pre src. constructor.
  - intros lnext IHnext l c0 ch IHch (Hl & Hch & Hnext) pre src.
    cbn [Line_paths]. rewrite fmap_app, fmap_cons. cbn [fst].
    apply list.NoDup_app. split_and!.
    + by apply IHch.
    + intros p ([p' c] & -> & Hin)%list_elem_of_fmap. simpl.
      destruct (HS ch Hch _ _ _ Hin) as (key & q & -> & _).
      rewrite <- (assoc_L (++)).
      intros [Heq|([p2 c2] & Hp2 & Hin2)%list_elem_of_fmap]%elem_of_cons.
      * by apply (inj (app pre)) in Heq.
      * destruct (HL lnext Hnext _ _ _ _ Hin2) as (l' & q2 & Hp & Hl' & _).
        simpl in Hp2. rewrite Hp in Hp2. apply (inj (app pre)) in Hp2.
        injection Hp2 as -> _. done.
    + apply list.NoDup_cons. split; [|by apply IHnext].
      intros ([p2 c2] & Hp2 & Hin2)%list_elem_of_fmap.
      destruct (HL lnext Hnext _ _ _ _ Hin2) as (l' & q2 & Hp & Hl' & _).
      simpl in Hp2. rewrite Hp in Hp2. apply (inj (app pre)) in Hp2.
      injection Hp2 as -> _. done.
  - intros _ pre. constructor.
  - intros snext IHnext s lh IHlh (Hs & Hlh & Hnext) pre.
    cbn [Source_paths]. rewrite fmap_app. apply list.NoDup_app. split_and!.
    + by apply IHlh.
    + intros p ([p' c] & -> & Hin)%list_elem_of_fmap. simpl.
      destruct (HL lh Hlh _ _ _ _ Hin) as (l & q & -> & _).
      intros ([p2 c2] & Hp2 & Hin2)%list_elem_of_fmap.
      destruct (HS snext Hnext _ _ _ Hin2) as (key & q2 & Hp & Hk & _).
      simpl in Hp2. rewrite Hp in Hp2. apply (inj (app pre)) in Hp2.
      injection Hp2 as <- _. done.
    + by apply IHnext.
Qed.

(** C3.  What [dumpSources] writes for a forest is, for each node of the
    forest once (under a node first, then the node, then its next siblings;
    nodes with children and nodes with no hits included), the line made of
    the [source:line] tokens of the path from the root to the node joined by
    [;], a space, the node's hit count in decimal and a newline; there are as
    many lines as nodes.  In a forest without duplicate siblings the paths of
    the lines are pairwise distinct and the count of each line is the count
    found by looking its path up. *)
Theorem dumpSources_one_line_per_node (cstr : ptr → string) (forest : Source) :
  dumpSources cstr forest StNull =
    str_concat (report_line cstr <$> Source_paths [] forest) ∧
  length (Source_paths [] forest) = Source_size forest ∧
  (Source_wf forest →
   NoDup (Source_paths [] forest).*1 ∧
   ∀ p c, (p, c) ∈ Source_paths [] forest → count_at p forest = Some c).
Proof.
  split_and!.
  - apply (proj2 (dump_spec cstr) forest StNull).
  - apply paths_length.
  - intros Hwf. split; [by apply paths_NoDup|].
    intros p c Hin.
    by destruct (proj2 paths_lookup forest Hwf [] p c Hin) as (key & q & -> & _ & Hc).
Qed.

Lemma dumpSources_one_line_per_node_witness :
  let forest := Nat.iter 5 (getARLine [frame10] frame20 Line_count_incr) SNull in
  dumpSources mod_lua forest StNull =
    str_concat (report_line mod_lua <$> Source_paths [] forest) ∧
  length (Source_paths [] forest) = Source_size forest ∧
  (Source_wf forest →
   NoDup (Source_paths [] forest).*1 ∧
   ∀ p c, (p, c) ∈ Source_paths [] forest → count_at p forest = Some c).
Proof.
  exact (dumpSources_one_line_per_node mod_lua
           (Nat.iter 5 (getARLine [frame10] frame20 Line_count_incr) SNull)).
Defined.

Example dumpSources_three_children :
  let leaf l c := LCons LNull l c SNull in
  let forest :=
    SCons SNull 1
      (LCons LNull 7 1
         (SCons SNull 1 (LCons (LCons (leaf 30 4) 20 0 SNull) 10 2 SNull))) in
  dumpSources (λ _, "a") forest StNull =
  "a:7;a:10 2" +:+ nl +:+ "a:7;a:20 0" +:+ nl +:+ "a:7;a:30 4" +:+ nl +:+
  "a:7 1" +:+ nl.
Proof. by vm_compute. Qed.

(** ** The rate controller *)

Lemma countHook_elapsed_pos cur last : 1 ≤ countHook_elapsed cur last.
Proof. unfold countHook_elapsed. case_decide; lia. Qed.

Lemma countHook_elapsed_forward cur last :
  last ≤ cur < last + 2 ^ 64 →
  countHook_elapsed cur last = Z.max (cur - last) 1.
Proof.
  intros H. unfold countHook_elapsed, to_u64.
  rewrite Z.mod_small by lia. case_decide; lia.
Qed.

(** C4, as the code has it.  For two [uint64_t] times, the divisor is the
    difference modulo [2^64] with a floor of 1: it is [max (cur - last) 1]
    when the clock has not stepped back, the wrapped difference
    [2^64 - (last - cur)] when it has, and never less than 1. *)
Theorem countHook_elapsed_wraps (cur last : Z) :
  0 ≤ cur < 2 ^ 64 → 0 ≤ last < 2 ^ 64 →
  countHook_elapsed cur last =
    (if decide (last ≤ cur) then Z.max (cur - last) 1 else 2 ^ 64 - (last - cur)) ∧
  1 ≤ countHook_elapsed cur last.
Proof.
  intros Hc Hl. split; [|apply countHook_elapsed_pos].
  case_decide.
  - apply countHook_elapsed_forward. lia.
  - unfold countHook_elapsed, to_u64.
    replace (cur - last) with (2 ^ 64 - (last - cur) + -1 * 2 ^ 64) by lia.
    rewrite Z_mod_plus_full, Z.mod_small by lia. case_decide; lia.
Qed.

Lemma countHook_elapsed_wraps_witness :
  countHook_elapsed 5 10 =
    (if decide (10 ≤ 5) then Z.max (5 - 10) 1 else 2 ^ 64 - (10 - 5)) ∧
  1 ≤ countHook_elapsed 5 10.
Proof. apply (countHook_elapsed_wraps 5 10); lia. Defined.

(** C4, as the specification states it, does not hold when the clock steps
    back: with [gLastTime = 10] and [cur = 5] the divisor is not
    [max (cur - gLastTime) 1 = 1] but [2^64 - 5]. *)
Lemma countHook_elapsed_clock_back :
  ¬ (countHook_elapsed 5 10 = Z.max (5 - 10) 1) ∧
  countHook_elapsed 5 10 = 2 ^ 64 - 5.
Proof. split; [by vm_compute|by vm_compute]. Qed.

Lemma countHook_spec above ar cur t_end s :
  IPMS_inv (gIPMS s) →
  ∃ w med,
    updateIPMSWin (countHook_ipms (gLastCount s) (countHook_elapsed cur (gLastTime s)))
      (gIPMS s) = Some (w, med) ∧
    IPMS_inv w ∧
    countHook above ar cur t_end s =
      Some {| gLastCount := Z.max med 1;
              gLastTime := t_end;
              gIPMS := w;
              gSourceHead := getARLine above ar Line_count_incr (gSourceHead s);
              L_hookmask := HOOKMASK;
              L_hookcount := Z.max med 1 |}.
Proof.
  intros Hinv.
  destruct (updateIPMSWin_step
              (countHook_ipms (gLastCount s) (countHook_elapsed cur (gLastTime s)))
              (gIPMS s) Hinv) as (w & med & _ & _ & Hrun & Hinv' & _).
  exists w, med. split_and!; [done|done|].
  unfold countHook. rewrite Hrun. bind_step.
  replace (if decide (med < 1) then 1 else med) with (Z.max med 1)
    by (case_decide; lia).
  done.
Qed.

(** C6.  From every state whose window is well formed (the initial one and
    every one reached from it), whatever the instruction count, the times
    and the stack, [countHook] returns, and the interval it stores in
    [gLastCount] and arms the count hook with is at least 1. *)
Theorem countHook_interval_ge_1 (above : list lua_Debug) (ar : lua_Debug)
    (cur t_end : Z) (s : state) :
  IPMS_inv (gIPMS s) →
  ∃ s', countHook above ar cur t_end s = Some s' ∧
        1 ≤ gLastCount s' ∧
        L_hookcount s' = gLastCount s' ∧ L_hookmask s' = LUA_MASKCOUNT.
Proof.
  intros Hinv.
  destruct (countHook_spec above ar cur t_end s Hinv) as (w & med & _ & _ & ->).
  eexists. split; [done|]. simpl. split_and!; [lia|done|done].
Qed.

Lemma countHook_interval_ge_1_witness :
  ∃ s', countHook [frame10] frame20 100 100 state_init = Some s' ∧
        1 ≤ gLastCount s' ∧
        L_hookcount s' = gLastCount s' ∧ L_hookmask s' = LUA_MASKCOUNT.
Proof.
  apply (countHook_interval_ge_1 [frame10] frame20 100 100 state_init).
  apply IPMS_init_inv.
Defined.

(** ** A run of interrupts and the report after it *)

Lemma countHook_forest_wf above ar cur t_end s s' :
  Source_wf (gSourceHead s) →
  countHook above ar cur t_end s = Some s' →
  Source_wf (gSourceHead s').
Proof.
  intros Hwf. unfold countHook.
  destruct (updateIPMSWin _ _) as [[w med]|]; [|done].
  bind_step. intros [= <-]. simpl. rewrite getARLine_record_with.
  eapply record_with_wf; [apply writes_fields_count_incr|done|done].
Qed.

Lemma interrupts_spec above ar ts : ∀ s,
  IPMS_inv (gIPMS s) →
  ∃ s', interrupts ts above ar s = Some s' ∧
        IPMS_inv (gIPMS s') ∧
        gSourceHead s' =
          Nat.iter (length ts) (getARLine above ar Line_count_incr) (gSourceHead s).
Proof.
  induction ts as [|[cur t_end] ts IH]; intros s Hinv.
  - by exists s.
  - destruct (countHook_spec above ar cur t_end s Hinv) as (w & med & _ & Hinv' & Hrun).
    cbn [interrupts hook]. rewrite Hrun. bind_step.
    match goal with |- context [interrupts ts above ar ?s1] =>
      destruct (IH s1 Hinv') as (s' & Hrun' & Hinv'' & Hf) end.
    exists s'. split_and!; [done|done|].
    rewrite Hf. cbn [gSourceHead length]. by rewrite Nat.iter_succ_r.
Qed.

(** C2, as the code has it.  From a profiler with no node yet (a fresh one,
    started or not, whatever its instruction count), after five count hooks
    that sample the stack [mod.lua:10] calling [mod.lua:20], whatever the
    times of the hooks, the dump writes two lines: the leaf with its 5 hits,
    then the node [mod.lua:10] of the caller with no hit. *)
Theorem five_interrupts_dump (pid : Z) (ts : list (Z * Z)) (s0 : state) :
  IPMS_inv (gIPMS s0) → gSourceHead s0 = SNull → length ts = 5%nat →
  ∃ s, interrupts ts [frame10] frame20 s0 = Some s ∧
       (countprof_dump mod_lua pid s).2.2 =
         "mod.lua:10;mod.lua:20 5" +:+ nl +:+ "mod.lua:10 0" +:+ nl.
Proof.
  intros Hinv Hnil Hlen.
  destruct (interrupts_spec [frame10] frame20 ts s0 Hinv) as (s & Hrun & _ & Hf).
  exists s. split; [done|].
  unfold countprof_dump. cbn [snd]. rewrite Hf, Hnil, Hlen. by vm_compute.
Qed.

Lemma five_interrupts_dump_witness :
  ∃ s, interrupts every_100us [frame10] frame20 (countprof_start 0 state_init) = Some s ∧
       (countprof_dump mod_lua 4242 s).2.2 =
         "mod.lua:10;mod.lua:20 5" +:+ nl +:+ "mod.lua:10 0" +:+ nl.
Proof.
  apply (five_interrupts_dump 4242 every_100us (countprof_start 0 state_init)).
  - apply IPMS_init_inv.
  - reflexivity.
  - reflexivity.
Defined.

(** C2, as the specification states it, does not hold: the five interrupts
    100 microseconds apart do not leave a report of the single line
    [mod.lua:10;mod.lua:20 5]. *)
Lemma five_interrupts_dump_not_one_line :
  ¬ ∃ s, interrupts every_100us [frame10] frame20 (countprof_start 0 state_init) = Some s ∧
         (countprof_dump mod_lua 4242 s).2.2 = "mod.lua:10;mod.lua:20 5" +:+ nl.
Proof.
  intros (s & Hrun & Hdump).
  vm_compute in Hrun. injection Hrun as <-.
  vm_compute in Hdump. discriminate Hdump.
Qed.

(** Every state of the profiler has a window reached from the initial one, a
    forest without duplicate siblings and an interval of at least 1. *)
Lemma reachable_inv s :
  reachable s →
  IPMS_reachable (gIPMS s) ∧ Source_wf (gSourceHead s) ∧ 1 ≤ gLastCount s.
Proof.
  unfold reachable. intros Hr. apply rtc_nsteps in Hr as [n Hr].
  revert s Hr. induction n as [|n IH]; intros s Hr.
  - apply nsteps_once_inv in Hr || inversion Hr; subst.
    split_and!; [constructor|done|done].
  - apply nsteps_inv_r in Hr as (s1 & Hr & Hstep).
    destruct (IH s1 Hr) as (Hw & Hf & Hc).
    inversion Hstep as [t s0|s0|cstr pid s0|ev above ar cur t_end s0 s0' Hhook];
      subst; try done.
    assert (Hcount : ∀ s2, countHook above ar cur t_end s1 = Some s2 →
              IPMS_reachable (gIPMS s2) ∧ Source_wf (gSourceHead s2) ∧
              1 ≤ gLastCount s2).
    { intros s2 Hrun. split_and!.
      - unfold countHook in Hrun.
        destruct (updateIPMSWin _ (gIPMS s1)) as [[w med]|] eqn:Hupd; [|done].
        injection Hrun as <-. simpl. by eapply IPMS_reach_step.
      - by eapply countHook_forest_wf.
      - destruct (countHook_spec above ar cur t_end s1 (IPMS_reachable_inv _ Hw))
          as (w & med & _ & _ & Hrun').
        rewrite Hrun in Hrun'. injection Hrun' as ->. simpl. lia. }
    destruct ev; simpl in Hhook.
    + by injection Hhook as <-.
    + by apply Hcount.
    + by injection Hhook as <-.
Qed.

(** * Further properties *)

(** ** The windowed median: rank, majority, eviction order *)

Lemma sorted_middle (win : list Z) m :
  Sorted Z.le win → win !! (WINSIZE / 2)%nat = Some m →
  ∃ A B, win = A ++ m :: B ∧ length A = (WINSIZE / 2)%nat ∧
         Forall (λ a, a ≤ m) A ∧ Forall (λ b, m ≤ b) B.
Proof.
  intros Hs Hm.
  exists (take (WINSIZE / 2) win), (drop (S (WINSIZE / 2)) win).
  pose proof (take_drop_middle _ _ _ Hm) as Hwin.
  assert (Hlt : (WINSIZE / 2 < length win)%nat) by by eapply lookup_lt_Some.
  apply Sorted_StronglySorted in Hs; [|apply _].
  rewrite <- Hwin in Hs.
  split_and!; [done|rewrite length_take; lia| |].
  - apply list.Forall_forall. intros a Ha.
    eapply StronglySorted_app_1_elem_of; [done|done|]. by left.
  - by apply StronglySorted_app_1_r, StronglySorted_cons in Hs as [? _].
Qed.

Lemma filter_all (P : Z → Prop) `{∀ x, Decision (P x)} (l : list Z) :
  Forall P l → filter P l = l.
Proof.
  induction 1 as [|x l Hx _ IH]; [done|].
  by rewrite filter_cons_True, IH.
Qed.

Lemma filter_none (P : Z → Prop) `{∀ x, Decision (P x)} (l : list Z) :
  Forall (λ x, ¬ P x) l → filter P l = [].
Proof.
  induction 1 as [|x l Hx _ IH]; [done|].
  by rewrite filter_cons_False, IH.
Qed.

(** X1.  From a well-formed window [updateIPMSWin] returns a median of the
    ring in the counting sense, whatever sort one has in mind: the value is
    one of the 19 values of the ring, at least 10 of them are not above it
    and at least 10 are not below it. *)
Theorem updateIPMSWin_median_rank (w : IPMS) (ipms : Z) :
  IPMS_inv w →
  ∃ w' med,
    updateIPMSWin ipms w = Some (w', med) ∧
    med ∈ gIPMSRing w' ∧
    (10 ≤ length (filter (λ v, (v ≤ med)%Z) (gIPMSRing w')))%nat ∧
    (10 ≤ length (filter (λ v, (med ≤ v)%Z) (gIPMSRing w')))%nat.
Proof.
  intros Hinv.
  destruct (updateIPMSWin_step ipms w Hinv)
    as (w' & med & r & i & Hrun & (Hlw & _ & _ & Hs & Hp) & _ & _ & _ & Hm & _).
  exists w', med. split; [done|].
  destruct (sorted_middle _ _ Hs Hm) as (A & B & Hwin & HlA & HA & HB).
  rewrite <- Hp, Hwin. split_and!.
  - apply elem_of_app. right. by left.
  - rewrite list.filter_app, filter_cons_True by lia.
    rewrite (filter_all _ A) by done.
    rewrite length_app. simpl. rewrite HlA. unfold WINSIZE. simpl. lia.
  - rewrite list.filter_app, filter_cons_True by lia.
    rewrite (filter_all _ B) by done.
    rewrite length_app. simpl.
    apply (f_equal length) in Hwin. rewrite length_app in Hwin. simpl in Hwin.
    rewrite Hlw, HlA in Hwin. unfold WINSIZE in *. simpl in *. lia.
Qed.

Lemma updateIPMSWin_median_rank_witness :
  ∃ w' med,
    updateIPMSWin 7 IPMS_init = Some (w', med) ∧
    med ∈ gIPMSRing w' ∧
    (10 ≤ length (filter (λ v, (v ≤ med)%Z) (gIPMSRing w')))%nat ∧
    (10 ≤ length (filter (λ v, (med ≤ v)%Z) (gIPMSRing w')))%nat.
Proof. apply (updateIPMSWin_median_rank IPMS_init 7). apply IPMS_init_inv. Defined.

Lemma majority_is_middle (win : list Z) c m :
  Sorted Z.le win → length win = WINSIZE →
  win !! (WINSIZE / 2)%nat = Some m →
  (10 ≤ length (filter (λ v : Z, v = c) win))%nat → m = c.
Proof.
  intros Hs Hlen Hm Hc.
  destruct (sorted_middle _ _ Hs Hm) as (A & B & Hwin & HlA & HA & HB).
  assert (HlB : length B = 9%nat).
  { apply (f_equal length) in Hwin. rewrite length_app in Hwin. simpl in Hwin.
    rewrite Hlen, HlA in Hwin. unfold WINSIZE in *. simpl in *. lia. }
  destruct (decide (m = c)) as [|Hne]; [done|exfalso].
  rewrite Hwin, list.filter_app, filter_cons_False, length_app in Hc by done.
  destruct (decide (m < c)).
  - rewrite (filter_none _ A) in Hc.
    + pose proof (length_filter (λ v, v = c) B). simpl in Hc. lia.
    + eapply Forall_impl; [|exact HA]. simpl. lia.
  - rewrite (filter_none _ B) in Hc.
    + pose proof (length_filter (λ v, v = c) A).
      rewrite HlA in *. unfold WINSIZE in *. simpl in *. lia.
    + eapply Forall_impl; [|exact HB]. simpl. lia.
Qed.

(** X2.  A value held by at least 10 of the 19 slots of the ring after an
    update is the value returned: fewer than 10 samples never move the
    median away from the value of the others. *)
Theorem updateIPMSWin_majority (w : IPMS) (ipms : Z) :
  IPMS_inv w →
  ∃ w' med,
    updateIPMSWin ipms w = Some (w', med) ∧
    ∀ c : Z, (10 ≤ length (filter (λ v : Z, v = c) (gIPMSRing w')))%nat → med = c.
Proof.
  intros Hinv.
  destruct (updateIPMSWin_step ipms w Hinv)
    as (w' & med & r & i & Hrun & (Hlw & _ & _ & Hs & Hp) & _ & _ & _ & Hm & _).
  exists w', med. split; [done|]. intros c Hc.
  rewrite <- Hp in Hc. by eapply majority_is_middle.
Qed.

Lemma updateIPMSWin_majority_witness :
  ∃ w' med,
    updateIPMSWin 7 IPMS_init = Some (w', med) ∧
    ∀ c : Z, (10 ≤ length (filter (λ v : Z, v = c) (gIPMSRing w')))%nat → med = c.
Proof. apply (updateIPMSWin_majority IPMS_init 7). apply IPMS_init_inv. Defined.

Lemma observe_all_idx xs : ∀ w w' ms,
  IPMS_inv w → observe_all xs w = Some (w', ms) →
  gIPMSRingIdx w' = ((gIPMSRingIdx w + length xs) mod WINSIZE)%nat.
Proof.
  induction xs as [|x xs IH]; intros w w' ms Hinv Hrun.
  - injection Hrun as <- _. cbn [length]. rewrite Nat.add_0_r, Nat.mod_small; [done|].
    by destruct Hinv as (_ & _ & ? & _).
  - destruct (updateIPMSWin_step x w Hinv)
      as (w1 & m & r & i & Hrun1 & Hinv1 & Hidx & _).
    cbn [observe_all] in Hrun. rewrite Hrun1 in Hrun. cbn [mbind option_bind] in Hrun.
    destruct (observe_all xs w1) as [[w2 ms2]|] eqn:Hrun2; [|done].
    injection Hrun as <- _.
    rewrite (IH w1 w2 ms2 Hinv1 Hrun2), Hidx.
    destruct Hinv as (_ & _ & Hlt & _). unfold WINSIZE in *.
    replace (gIPMSRingIdx w + length (x :: xs))%nat
      with (S (gIPMSRingIdx w) + length xs)%nat by (cbn [length]; lia).
    case_decide.
    + assert (gIPMSRingIdx w = 18%nat) as -> by lia.
      rewrite (Nat.Div0.add_mod 19 (length xs) 19), Nat.Div0.mod_same.
      rewrite !Nat.add_0_l. by rewrite Nat.Div0.mod_mod.
    + done.
Qed.

(** X3.  Once 19 values have been fed, the window has forgotten everything
    older: read around from the slot after the cursor the ring is the last
    19 values in arrival order (the slot after the cursor is the oldest, the
    next to be evicted), the cursor is the number of values fed modulo 19,
    and the sorted view is the sort of those 19 values. *)
Theorem observe_all_last_19 (xs : list Z) :
  (WINSIZE ≤ length xs)%nat →
  ∃ w ms,
    observe_all xs IPMS_init = Some (w, ms) ∧
    gIPMSRingIdx w = (length xs mod WINSIZE)%nat ∧
    drop (S (gIPMSRingIdx w)) (gIPMSRing w) ++ take (S (gIPMSRingIdx w)) (gIPMSRing w)
      = recent xs ∧
    gIPMSWin w = merge_sort Z.le (recent xs).
Proof.
  intros Hlen.
  destruct (observe_all_spec xs IPMS_init [] IPMS_init_inv IPMS_init_holds)
    as (w & ms & Hrun & Hinv & Hh & _).
  exists w, ms. split_and!; [done| | |].
  - by rewrite (observe_all_idx xs _ _ _ IPMS_init_inv Hrun).
  - unfold IPMS_holds in Hh. rewrite Hh.
    change ([] ++ xs) with xs. by apply recent_past_zeros.
  - rewrite (IPMS_win_sorted_recent w ([] ++ xs) Hinv Hh).
    change ([] ++ xs) with xs. by rewrite recent_past_zeros.
Qed.

Lemma observe_all_last_19_witness :
  ∃ w ms,
    observe_all (seqZ 1 21) IPMS_init = Some (w, ms) ∧
    gIPMSRingIdx w = (length (seqZ 1 21) mod WINSIZE)%nat ∧
    drop (S (gIPMSRingIdx w)) (gIPMSRing w) ++ take (S (gIPMSRingIdx w)) (gIPMSRing w)
      = recent (seqZ 1 21) ∧
    gIPMSWin w = merge_sort Z.le (recent (seqZ 1 21)).
Proof. apply (observe_all_last_19 (seqZ 1 21)). vm_compute. lia. Defined.

Lemma find_rem_char k (win : list Z) r : ∀ i,
  length win = (i + k)%nat →
  match find_rem k win r i with
  | Some j => (i ≤ j)%nat ∧ win !! j = Some r ∧
              ∀ j', (i ≤ j' < j)%nat → win !! j' ≠ Some r
  | None => r ∉ drop i win
  end.
Proof.
  induction k as [|k IH]; intros i Hlen.
  - simpl. unfold rd. rewrite lookup_ge_None_2 by lia. simpl.
    rewrite drop_ge by lia. apply not_elem_of_nil.
  - destruct (lookup_lt_is_Some_2 win i) as [x Hx]; [lia|].
    cbn [find_rem]. unfold rd. rewrite Hx. bind_step.
    destruct (decide (x ≠ r)) as [Hne|Heq].
    + specialize (IH (S i)). destruct (find_rem k win r (S i)) as [j|].
      * destruct IH as (Hj & Hr & Hfirst); [lia|]. split_and!; [lia|done|].
        intros j' Hj'. destruct (decide (j' = i)) as [->|].
        -- rewrite Hx. by intros [= ->].
        -- apply Hfirst. lia.
      * rewrite (drop_S _ _ _ Hx). intros [->|Hin]%elem_of_cons; [done|].
        apply IH; [lia|done].
    + apply dec_stable in Heq. subst x. split_and!; [lia|done|]. lia.
Qed.

(** X4.  The scan [while(gIPMSWin[i] != ipmsRem) i++] on a 19-slot array
    stops at the first slot that holds the value; when no slot holds it, the
    scan reads [gIPMSWin[19]], past the end of the array. *)
Theorem find_rem_first_or_past_end (win : list Z) (ipmsRem : Z) :
  length win = WINSIZE →
  match find_rem WINSIZE win ipmsRem 0 with
  | Some i => win !! i = Some ipmsRem ∧ ∀ j, (j < i)%nat → win !! j ≠ Some ipmsRem
  | None => ipmsRem ∉ win
  end.
Proof.
  intros Hlen. pose proof (find_rem_char WINSIZE win ipmsRem 0 Hlen) as H.
  destruct (find_rem WINSIZE win ipmsRem 0) as [i|]; [|done].
  destruct H as (_ & Hi & Hfirst). split; [done|].
  intros j Hj. apply Hfirst. lia.
Qed.

Lemma find_rem_first_or_past_end_witness :
  match find_rem WINSIZE (replicate 9 1 ++ replicate 10 4) 4 0 with
  | Some i => (replicate 9 1 ++ replicate 10 4) !! i = Some 4 ∧
              ∀ j, (j < i)%nat → (replicate 9 1 ++ replicate 10 4) !! j ≠ Some 4
  | None => 4 ∉ replicate 9 1 ++ replicate 10 4
  end.
Proof. apply (find_rem_first_or_past_end (replicate 9 1 ++ replicate 10 4) 4). reflexivity. Defined.

(** X5.  [updateIPMSWin] relies on the sorted view holding the value it
    evicts from the ring: from a state with two 19-slot arrays where it does
    not, the call reads out of bounds, whatever the new sample. *)
Theorem updateIPMSWin_evicted_missing (w : IPMS) (ipms ipmsRem : Z) :
  length (gIPMSWin w) = WINSIZE → length (gIPMSRing w) = WINSIZE →
  gIPMSRing w !! (if decide (WINSIZE ≤ S (gIPMSRingIdx w))%nat then O
                  else S (gIPMSRingIdx w)) = Some ipmsRem →
  ipmsRem ∉ gIPMSWin w →
  updateIPMSWin ipms w = None.
Proof.
  intros Hlw Hlr Hrem Hnin. unfold updateIPMSWin.
  set (idx := if decide (WINSIZE ≤ S (gIPMSRingIdx w))%nat then O
              else S (gIPMSRingIdx w)) in *.
  replace (rd (gIPMSRing w) idx) with (Some ipmsRem) by (symmetry; exact Hrem).
  bind_step. rewrite wr_Some by by eapply lookup_lt_Some. bind_step.
  pose proof (find_rem_char WINSIZE (gIPMSWin w) ipmsRem 0 Hlw) as H.
  destruct (find_rem WINSIZE (gIPMSWin w) ipmsRem 0) as [i|]; [|done].
  destruct H as (_ & Hi & _). destruct Hnin. by eapply list_elem_of_lookup_2.
Qed.

Lemma updateIPMSWin_evicted_missing_witness :
  updateIPMSWin 5 {| gIPMSWin := replicate 19 0; gIPMSRing := replicate 19 3;
                     gIPMSRingIdx := 0 |} = None.
Proof.
  apply (updateIPMSWin_evicted_missing
           {| gIPMSWin := replicate 19 0; gIPMSRing := replicate 19 3;
              gIPMSRingIdx := 0 |} 5 3).
  - reflexivity.
  - reflexivity.
  - reflexivity.
  - vm_compute. intros H. repeat (apply elem_of_cons in H as [H|H]; [discriminate H|]).
    by apply elem_of_nil in H.
Defined.

(** ** The clock and the rate *)

Lemma to_int_small z : - 2 ^ 31 ≤ z < 2 ^ 31 → to_int z = z.
Proof. intros H. unfold to_int. rewrite Z.mod_small by lia. lia. Qed.

Lemma to_u64_small z : 0 ≤ z < 2 ^ 64 → to_u64 z = z.
Proof. intros H. unfold to_u64. by rewrite Z.mod_small by lia. Qed.

Lemma now_small tv_sec tv_usec :
  0 ≤ tv_sec → 0 ≤ tv_usec < 1000000 → 1000000 * tv_sec + tv_usec < 2 ^ 64 →
  now tv_sec tv_usec = 1000000 * tv_sec + tv_usec.
Proof.
  intros Hs Hu Hlt.
  unfold now. rewrite (to_u64_small tv_sec), (to_u64_small tv_usec) by lia.
  rewrite (to_u64_small (1000000 * tv_sec)) by lia.
  by rewrite to_u64_small by lia.
Qed.

(** X6.  [now()] is exact for a [struct timeval] of the present era: with
    [0 ≤ tv_usec < 10^6] and the microsecond count below [2^64] nothing
    wraps, and the seconds and microseconds are read back from the
    result by division and remainder. *)
Theorem now_exact (tv_sec tv_usec : Z) :
  0 ≤ tv_sec → 0 ≤ tv_usec < 1000000 → 1000000 * tv_sec + tv_usec < 2 ^ 64 →
  now tv_sec tv_usec = 1000000 * tv_sec + tv_usec ∧
  now tv_sec tv_usec / 1000000 = tv_sec ∧
  now tv_sec tv_usec mod 1000000 = tv_usec.
Proof.
  intros Hs Hu Hlt.
  rewrite now_small by done. split_and!; [done| |].
  - rewrite Z.mul_comm, Z.div_add_l by lia. rewrite Z.div_small by lia. lia.
  - rewrite Z.mul_comm, Z.add_comm, Z_mod_plus_full. by apply Z.mod_small.
Qed.

Lemma now_exact_witness :
  now 1793318400 250000 = 1000000 * 1793318400 + 250000 ∧
  now 1793318400 250000 / 1000000 = 1793318400 ∧
  now 1793318400 250000 mod 1000000 = 250000.
Proof. apply (now_exact 1793318400 250000); lia. Defined.

(** X7.  Between two readings of [now()] of which the second is not earlier,
    the divisor of [countHook] is the number of microseconds between the two
    [struct timeval]s, or 1 when they are equal. *)
Theorem countHook_elapsed_now (s1 u1 s2 u2 : Z) :
  0 ≤ s1 → 0 ≤ u1 < 1000000 → 0 ≤ s2 → 0 ≤ u2 < 1000000 →
  1000000 * s2 + u2 < 2 ^ 64 →
  1000000 * s1 + u1 ≤ 1000000 * s2 + u2 →
  countHook_elapsed (now s2 u2) (now s1 u1) =
    Z.max (1000000 * (s2 - s1) + (u2 - u1)) 1.
Proof.
  intros Hs1 Hu1 Hs2 Hu2 Hlt Hle.
  rewrite (now_small s1 u1), (now_small s2 u2) by lia.
  rewrite countHook_elapsed_forward by lia. f_equal. lia.
Qed.

Lemma countHook_elapsed_now_witness :
  countHook_elapsed (now 1793318401 300) (now 1793318400 999800) =
    Z.max (1000000 * (1793318401 - 1793318400) + (300 - 999800)) 1.
Proof. apply (countHook_elapsed_now 1793318400 999800 1793318401 300); lia. Defined.

(** X8.  While the interval times 1000 fits an [int], the estimate is the
    quotient [gLastCount * 1000 / elapsed] over the integers, between 0 and
    [gLastCount * 1000]; when exactly one millisecond has elapsed it is
    [gLastCount] itself, so that the interval that took a millisecond is
    proposed again. *)
Theorem countHook_ipms_exact (lastCount elapsed : Z) :
  0 ≤ lastCount ≤ 2147483 → 1 ≤ elapsed < 2 ^ 64 →
  countHook_ipms lastCount elapsed = lastCount * 1000 / elapsed ∧
  0 ≤ countHook_ipms lastCount elapsed ≤ lastCount * 1000 ∧
  (elapsed = 1000 → countHook_ipms lastCount elapsed = lastCount).
Proof.
  intros Hc He.
  assert (Hq : 0 ≤ lastCount * 1000 / elapsed ≤ lastCount * 1000).
  { split; [apply Z.div_pos; lia|].
    apply Z.div_le_upper_bound; [lia|]. nia. }
  assert (Hipms : countHook_ipms lastCount elapsed = lastCount * 1000 / elapsed).
  { unfold countHook_ipms. rewrite (to_int_small (lastCount * 1000)) by lia.
    rewrite to_u64_small by lia. apply to_int_small. lia. }
  rewrite Hipms. split_and!; [done|lia|lia|].
  intros ->. by rewrite Z.div_mul.
Qed.

Lemma countHook_ipms_exact_witness :
  countHook_ipms 52000 1300 = 52000 * 1000 / 1300 ∧
  0 ≤ countHook_ipms 52000 1300 ≤ 52000 * 1000 ∧
  (1300 = 1000 → countHook_ipms 52000 1300 = 52000).
Proof. apply (countHook_ipms_exact 52000 1300); lia. Defined.

Lemma recent_zeros (hist : list Z) :
  (length hist ≤ WINSIZE)%nat →
  recent (replicate WINSIZE 0 ++ hist) = replicate (WINSIZE - length hist) 0 ++ hist.
Proof.
  intros Hlen. unfold recent. rewrite length_app, length_replicate.
  replace (WINSIZE + length hist - WINSIZE)%nat with (length hist) by lia.
  rewrite drop_app_le by (rewrite length_replicate; lia).
  by rewrite drop_replicate.
Qed.

Lemma count_rotate (P : Z → Prop) `{∀ x, Decision (P x)} (l : list Z) n :
  length (filter P (drop n l ++ take n l)) = length (filter P l).
Proof.
  rewrite <- (take_drop n l) at 3.
  rewrite !list.filter_app, !length_app. lia.
Qed.

Lemma count_hooks_cold hs : ∀ s hist,
  IPMS_inv (gIPMS s) → IPMS_holds (gIPMS s) hist →
  (length hist + length hs ≤ 9)%nat →
  gLastCount s = 1 → L_hookcount s = 1 →
  ∃ s', count_hooks hs s = Some s' ∧ gLastCount s' = 1 ∧ L_hookcount s' = 1.
Proof.
  induction hs as [|[[[above ar] cur] t_end] hs IH];
    intros s hist Hinv Hh Hlen Hc Hk.
  - by exists s.
  - cbn [length] in Hlen.
    destruct (countHook_spec above ar cur t_end s Hinv)
      as (w & med & Hupd & Hinv' & Hrun).
    pose proof (IPMS_holds_step _ _ _ _ _ Hinv Hh Hupd) as Hh'.
    assert (Hmed : med = 0).
    { destruct (updateIPMSWin_step
                (countHook_ipms (gLastCount s) (countHook_elapsed cur (gLastTime s)))
                _ Hinv)
        as (w1 & m1 & r & i & Hupd1 & (Hlw & _ & _ & Hs & Hp) & _ & _ & _ & Hm & _).
      rewrite Hupd in Hupd1. injection Hupd1 as <- <-.
      eapply majority_is_middle; [done|done|done|].
      rewrite Hp.
      rewrite <- (count_rotate _ _ (S (gIPMSRingIdx w))).
      unfold IPMS_holds in Hh'. rewrite Hh'.
      rewrite recent_zeros by (rewrite length_app; unfold WINSIZE; simpl; lia).
      rewrite list.filter_app, length_app.
      rewrite filter_all by (apply Forall_replicate; done).
      rewrite length_replicate, length_app. unfold WINSIZE. simpl. lia. }
    subst med. cbn [count_hooks hook]. rewrite Hrun. bind_step.
    eapply (IH _ (hist ++
                   [countHook_ipms (gLastCount s) (countHook_elapsed cur (gLastTime s))]));
      cbn [gIPMS gLastCount L_hookcount]; [done|exact Hh'| |done|done].
    rewrite length_app. simpl. lia.
Qed.

(** X9.  Cold start: the window starts as 19 zeros, so the median is still 0
    after each of the first nine count hooks of a fresh profiler, whatever
    their times and stacks; each of them stores the interval 1 and arms the
    count hook with 1. *)
Theorem count_hooks_cold_start (t0 : Z) (hs : list (list lua_Debug * lua_Debug * Z * Z)) :
  (length hs ≤ 9)%nat →
  ∃ s, count_hooks hs (countprof_start t0 state_init) = Some s ∧
       gLastCount s = 1 ∧ L_hookcount s = 1.
Proof.
  intros Hlen.
  apply (count_hooks_cold hs (countprof_start t0 state_init) []);
    [apply IPMS_init_inv|apply IPMS_init_holds|simpl; lia|done|done].
Qed.

Lemma count_hooks_cold_start_witness :
  ∃ s, count_hooks [([frame10], frame20, 3, 4); ([], frame10, 90000, 90001)]
         (countprof_start 0 state_init) = Some s ∧
       gLastCount s = 1 ∧ L_hookcount s = 1.
Proof.
  apply (count_hooks_cold_start 0
           [([frame10], frame20, 3, 4); ([], frame10, 90000, 90001)]).
  simpl. lia.
Defined.

Lemma count_insert (P : Z → Prop) `{∀ x, Decision (P x)} (l : list Z) i x :
  (length (filter P l) ≤ S (length (filter P (<[i:=x]> l))))%nat.
Proof.
  destruct (decide (i < length l)%nat) as [Hi|Hi].
  - destruct (lookup_lt_is_Some_2 l i Hi) as [y Hy].
    rewrite insert_take_drop by done.
    rewrite <- (take_drop_middle l i y Hy) at 1.
    rewrite !list.filter_app, !length_app, !filter_cons.
    repeat case_decide; simpl; lia.
  - rewrite list_insert_ge by lia. lia.
Qed.

(** X10.  One sample does not change the interval on which the window
    agrees: when at least 11 of the 19 values of the ring are [c], the count
    hook stores [max c 1] as the next interval, whatever the time elapsed
    (a pause, a clock step) and whatever the stack. *)
Theorem countHook_outlier (above : list lua_Debug) (ar : lua_Debug)
    (cur t_end c : Z) (s : state) :
  IPMS_inv (gIPMS s) →
  (11 ≤ length (filter (λ v : Z, v = c) (gIPMSRing (gIPMS s))))%nat →
  ∃ s', countHook above ar cur t_end s = Some s' ∧
        gLastCount s' = Z.max c 1 ∧ L_hookcount s' = Z.max c 1.
Proof.
  intros Hinv Hc.
  destruct (countHook_spec above ar cur t_end s Hinv) as (w & med & Hupd & _ & ->).
  eexists. split; [done|]. cbn [gLastCount L_hookcount].
  assert (med = c) as ->; [|done].
  destruct (updateIPMSWin_step
                (countHook_ipms (gLastCount s) (countHook_elapsed cur (gLastTime s)))
                _ Hinv)
    as (w1 & m1 & r & i & Hupd1 & (Hlw & _ & _ & Hs & Hp) & _ & _ & Hr & Hm & _).
  rewrite Hupd in Hupd1. injection Hupd1 as <- <-.
  eapply majority_is_middle; [done|done|done|].
  rewrite Hp, Hr.
  pose proof (count_insert (λ v : Z, v = c) (gIPMSRing (gIPMS s)) (gIPMSRingIdx w)
                (countHook_ipms (gLastCount s) (countHook_elapsed cur (gLastTime s)))).
  lia.
Qed.

Lemma countHook_outlier_witness :
  ∃ s', countHook [frame10] frame20 5 6 state_init = Some s' ∧
        gLastCount s' = Z.max 0 1 ∧ L_hookcount s' = Z.max 0 1.
Proof.
  apply (countHook_outlier [frame10] frame20 5 6 0 state_init).
  - apply IPMS_init_inv.
  - vm_compute. lia.
Defined.

(** ** The states of the profiler *)

Lemma reachable_hook s :
  reachable s →
  (L_hookmask s = 0 ∨ L_hookmask s = LUA_MASKCOUNT) ∧
  (L_hookmask s ≠ 0 → L_hookcount s = gLastCount s).
Proof.
  unfold reachable. intros Hr. apply rtc_nsteps in Hr as [n Hr].
  revert s Hr. induction n as [|n IH]; intros s Hr.
  - inversion Hr; subst. split; [by left|done].
  - apply nsteps_inv_r in Hr as (s1 & Hr & Hstep).
    pose proof (reachable_inv s1 (rtc_nsteps_2 _ _ _ Hr)) as (Hw & _).
    destruct (IH s1 Hr) as (Hmask & Hcnt).
    inversion Hstep as [t s0|s0|cstr pid s0|ev above ar cur t_end s0 s0' Hhook];
      subst; try done.
    + split; [by right|done].
    + split; [by left|done].
    + destruct ev; simpl in Hhook.
      * by injection Hhook as <-.
      * destruct (countHook_spec above ar cur t_end s1 (IPMS_reachable_inv _ Hw))
          as (w & med & _ & _ & Hrun').
        rewrite Hhook in Hrun'. injection Hrun' as ->. split; [by right|done].
      * by injection Hhook as <-.
Qed.

(** X11.  In every state the entry points and the hook can reach from the
    initial one: the window is well formed, no list of siblings of the
    forest has two nodes with the same key, the stored interval is at least
    1, the hook is either off or the count hook alone, and when it is on it
    is armed with the stored interval. *)
Theorem reachable_invariants (s : state) :
  reachable s →
  IPMS_inv (gIPMS s) ∧ Source_wf (gSourceHead s) ∧ 1 ≤ gLastCount s ∧
  (L_hookmask s = 0 ∨ L_hookmask s = LUA_MASKCOUNT) ∧
  (L_hookmask s ≠ 0 → L_hookcount s = gLastCount s ∧ 1 ≤ L_hookcount s).
Proof.
  intros Hr.
  destruct (reachable_inv s Hr) as (Hw & Hf & Hc).
  destruct (reachable_hook s Hr) as (Hm & Hk).
  split_and!; [by apply IPMS_reachable_inv|done|done|done|].
  intros Hne. rewrite (Hk Hne). done.
Qed.

Lemma reachable_invariants_witness :
  IPMS_inv (gIPMS (countprof_start 7 state_init)) ∧
  Source_wf (gSourceHead (countprof_start 7 state_init)) ∧
  1 ≤ gLastCount (countprof_start 7 state_init) ∧
  (L_hookmask (countprof_start 7 state_init) = 0 ∨
   L_hookmask (countprof_start 7 state_init) = LUA_MASKCOUNT) ∧
  (L_hookmask (countprof_start 7 state_init) ≠ 0 →
   L_hookcount (countprof_start 7 state_init) = gLastCount (countprof_start 7 state_init) ∧
   1 ≤ L_hookcount (countprof_start 7 state_init)).
Proof.
  apply (reachable_invariants (countprof_start 7 state_init)).
  apply rtc_once, step_start.
Defined.

(** ** Find-or-create and lookup *)

Lemma LLFIND_line_other line l' head :
  l' ≠ line →
  match LLFIND_line line head with
  | Some (_, _, _, rest) => Line_find l' rest = Line_find l' head
  | None => True
  end.
Proof.
  intros Hne. induction head as [|next IH l c ch]; [done|].
  simpl. destruct (decide (l = line)) as [->|Hl].
  - by rewrite decide_False by done.
  - destruct (LLFIND_line line next) as [[[[l0 c0] ch0] rest]|]; simpl; [|done].
    by rewrite IH.
Qed.

Lemma LLFIND_source_other source s' head :
  s' ≠ source →
  match LLFIND_source source head with
  | Some (_, _, rest) => Source_find s' rest = Source_find s' head
  | None => True
  end.
Proof.
  intros Hne. induction head as [|next IH s lh]; [done|].
  simpl. destruct (decide (s = source)) as [->|Hs].
  - by rewrite decide_False by done.
  - destruct (LLFIND_source source next) as [[[s0 lh0] rest]|]; simpl; [|done].
    by rewrite IH.
Qed.

Lemma Line_find_getLine_ne lh line l' :
  l' ≠ line → Line_find l' (getLine lh line) = Line_find l' lh.
Proof.
  intros Hne. unfold getLine.
  pose proof (LLFIND_line_other line l' lh Hne) as Ho.
  pose proof (LLFIND_line_find line lh) as Hf.
  destruct (LLFIND_line line lh) as [[[[l c] ch] rest]|]; simpl.
  - destruct Hf as (-> & _). by rewrite decide_False by done.
  - by rewrite decide_False by done.
Qed.

Lemma Source_find_getSource_ne head source s' :
  s' ≠ source → Source_find s' (getSource head source) = Source_find s' head.
Proof.
  intros Hne. unfold getSource.
  pose proof (LLFIND_source_other source s' head Hne) as Ho.
  pose proof (LLFIND_source_find source head) as Hf.
  destruct (LLFIND_source source head) as [[[s lh] rest]|]; simpl.
  - destruct Hf as (-> & _). by rewrite decide_False by done.
  - by rewrite decide_False by done.
Qed.

(** X12.  Find-or-create and lookup: after [getLine] for a line, looking
    that line up gives the count and children its node had, or 0 and none
    when the node is new; looking any other line up gives what it gave
    before.  The same holds for [getSource] and the lines of a source. *)
Theorem getLine_getSource_lookup (lines : Line) (line l' : Z)
    (sources : Source) (source s' : ptr) :
  Line_find l' (getLine lines line) =
    (if decide (l' = line) then Some (default (0, SNull) (Line_find line lines))
     else Line_find l' lines) ∧
  Source_find s' (getSource sources source) =
    (if decide (s' = source) then Some (default LNull (Source_find source sources))
     else Source_find s' sources).
Proof.
  split.
  - case_decide as Heq; [subst l'|by apply Line_find_getLine_ne].
    destruct (getLine_spec lines line) as (rest & -> & _). simpl.
    rewrite decide_True by done. by destruct (default _ _).
  - case_decide as Heq; [subst s'|by apply Source_find_getSource_ne].
    destruct (getSource_spec sources source) as (rest & -> & _). simpl.
    by rewrite decide_True.
Qed.

(** X13.  A second find-or-create of the same key finds the node at the head
    and leaves the list as the first call left it; no second node is made. *)
Theorem getLine_getSource_twice (lines : Line) (line : Z)
    (sources : Source) (source : ptr) :
  getLine (getLine lines line) line = getLine lines line ∧
  getSource (getSource sources source) source = getSource sources source.
Proof.
  split.
  - destruct (getLine_spec lines line) as (rest & -> & _).
    unfold getLine. simpl. by rewrite decide_True.
  - destruct (getSource_spec sources source) as (rest & -> & _).
    unfold getSource. simpl. by rewrite decide_True.
Qed.

(** ** Recording and the other nodes *)

Lemma node_find_find_or_create_ne key key' k fc fch head :
  writes_fields k fc fch → key' ≠ key →
  node_find key' (find_or_create key k head) = node_find key' head.
Proof.
  intros Hk Hne. unfold find_or_create, node_find.
  destruct (decide (key'.1 = key.1)) as [Heq|Hs].
  - assert (Hl : key'.2 ≠ key.2).
    { intros Hl. apply Hne. destruct key, key'. simpl in *. congruence. }
    rewrite Heq.
    destruct (getSource_spec head key.1) as (srest & -> & _). simpl.
    rewrite decide_True by done. simpl.
    set (lh := default LNull (Source_find key.1 head)).
    pose proof (Line_find_getLine_ne lh key.2 key'.2 Hl) as Hfind.
    destruct (getLine_spec lh key.2) as (lrest & Hg & _).
    rewrite Hg in *. rewrite Hk. simpl in *.
    rewrite decide_False in * by done. rewrite Hfind.
    unfold lh. by destruct (Source_find key.1 head).
  - pose proof (Source_find_getSource_ne head key.1 key'.1 Hs) as Hfind.
    destruct (getSource_spec head key.1) as (srest & Hg & _).
    rewrite Hg in *. simpl in *. rewrite decide_False in * by done.
    by rewrite Hfind.
Qed.

Lemma count_at_SNull q : count_at q SNull = None.
Proof. unfold count_at. by rewrite node_at_SNull. Qed.

Lemma count_at_cons_default key q head :
  q ≠ [] →
  count_at (key :: q) head = count_at q (default (0, SNull) (node_find key head)).2.
Proof.
  intros Hq. rewrite count_at_cons.
  destruct (node_find key head) as [n|]; simpl.
  - by destruct q.
  - by rewrite count_at_SNull.
Qed.

Lemma count_at_recordSample_frame path : ∀ q head,
  path ≠ [] → ¬ q `prefix_of` path →
  count_at q (recordSample path head) = count_at q head.
Proof.
  unfold recordSample.
  induction path as [|key [|b rest] IH]; intros q head Hne Hq; [done| |].
  - destruct q as [|key' q]; [by destruct Hq; apply prefix_nil|].
    cbn [record_with].
    destruct (decide (key' = key)) as [->|Hk].
    + assert (q ≠ []) by (intros ->; by apply Hq).
      rewrite !count_at_cons_default by done.
      by rewrite (node_find_find_or_create _ _ _ _ _ writes_fields_count_incr).
    + rewrite !count_at_cons.
      by rewrite (node_find_find_or_create_ne _ _ _ _ _ _ writes_fields_count_incr).
  - destruct q as [|key' q]; [by destruct Hq; apply prefix_nil|].
    change (record_with Line_count_incr (key :: b :: rest) head)
      with (find_or_create key
              (Line_callHead_upd (record_with Line_count_incr (b :: rest))) head).
    destruct (decide (key' = key)) as [->|Hk].
    + assert (q ≠ []) by (intros ->; apply Hq; by apply prefix_cons, prefix_nil).
      rewrite !count_at_cons_default by done.
      rewrite (node_find_find_or_create _ _ _ _ _ (writes_fields_callHead_upd _)).
      simpl. apply IH; [done|]. intros Hp. apply Hq. by apply prefix_cons.
    + rewrite !count_at_cons.
      by rewrite (node_find_find_or_create_ne _ _ _ _ _ _
                    (writes_fields_callHead_upd _)).
Qed.

Lemma count_at_getARLine above ar head q :
  count_at q (getARLine above ar Line_count_incr head) =
    if decide (q = stack_path above ar)
    then Some (to_u64 (default 0 (count_at q head) + 1))
    else if decide (q ≠ [] ∧ q `prefix_of` stack_path above ar)
    then Some (default 0 (count_at q head))
    else count_at q head.
Proof.
  rewrite getARLine_record_with.
  pose proof (stack_path_nonempty above ar) as Hne.
  set (path := stack_path above ar) in *.
  case_decide as H1; [subst q|case_decide as H2].
  - unfold count_at.
    rewrite (node_at_record_with _ _ _ _ _ writes_fields_count_incr) by done.
    simpl. by destruct (node_at path head).
  - destruct H2 as [Hq [r Hr]]. rewrite Hr.
    apply (count_at_record_with_prefix _ _ _ _ _ _ writes_fields_count_incr);
      [done|]. intros ->. by rewrite (right_id_L [] (++)) in Hr.
  - destruct (decide (q = [])) as [->|Hq]; [done|].
    apply count_at_recordSample_frame; [done|]. intros Hp. by apply H2.
Qed.

(** X14.  What one sample does to every count of the forest: the count of
    the node at the end of the sampled path goes up by one (from 0 when the
    node is new), the nodes on the way to it exist afterwards with the count
    they had (0 when new), and looking any other path up gives what it gave
    before. *)
Theorem getARLine_counts (above : list lua_Debug) (ar : lua_Debug)
    (head : Source) (q : list FrameKey) :
  count_at q (getARLine above ar Line_count_incr head) =
    if decide (q = stack_path above ar)
    then Some (to_u64 (default 0 (count_at q head) + 1))
    else if decide (q ≠ [] ∧ q `prefix_of` stack_path above ar)
    then Some (default 0 (count_at q head))
    else count_at q head.
Proof. apply count_at_getARLine. Qed.

(** X15.  A sample removes no node and lowers no count: a path that named a
    node with count [c] names one afterwards, with count [c] again, or
    [c + 1] (as a [uint64_t]) when it is the sampled path. *)
Theorem getARLine_keeps_nodes (above : list lua_Debug) (ar : lua_Debug)
    (head : Source) (q : list FrameKey) (c : Z) :
  count_at q head = Some c →
  count_at q (getARLine above ar Line_count_incr head) =
    Some (if decide (q = stack_path above ar) then to_u64 (c + 1) else c).
Proof.
  intros Hc. rewrite count_at_getARLine, Hc. simpl.
  repeat case_decide; done.
Qed.

Lemma getARLine_keeps_nodes_witness :
  count_at [(4096, 10)]
    (getARLine [] frame10 Line_count_incr
       (getARLine [frame10] frame20 Line_count_incr SNull)) =
    Some (if decide ([(4096, 10)] = stack_path [] frame10) then to_u64 (0 + 1) else 0).
Proof.
  apply (getARLine_keeps_nodes [] frame10
           (getARLine [frame10] frame20 Line_count_incr SNull) [(4096, 10)] 0).
  reflexivity.
Defined.

(** X16.  The counts do not depend on the order of the samples: two samples
    taken in either order leave every path with the same count (the lists
    of siblings may be ordered differently). *)
Theorem getARLine_commute (above1 : list lua_Debug) (ar1 : lua_Debug)
    (above2 : list lua_Debug) (ar2 : lua_Debug) (head : Source)
    (q : list FrameKey) :
  count_at q (getARLine above1 ar1 Line_count_incr
                (getARLine above2 ar2 Line_count_incr head)) =
  count_at q (getARLine above2 ar2 Line_count_incr
                (getARLine above1 ar1 Line_count_incr head)).
Proof.
  rewrite !count_at_getARLine.
  repeat case_decide; simpl; try done; try congruence.
Qed.

(** ** Sums over the forest: hits and allocated nodes *)

Lemma LLFIND_line_sum a f line head :
  match LLFIND_line line head with
  | Some (l, c, ch, rest) =>
      Line_sum a f head = f c + Source_sum a f ch + Line_sum a f rest
  | None => True
  end.
Proof.
  induction head as [|next IH l c ch]; [done|].
  simpl. destruct (decide (l = line)) as [->|Hl]; [done|].
  destruct (LLFIND_line line next) as [[[[l0 c0] ch0] rest]|]; simpl; [|done].
  lia.
Qed.

Lemma LLFIND_source_sum a f source head :
  match LLFIND_source source head with
  | Some (s, lh, rest) =>
      Source_sum a f head = a + Line_sum a f lh + Source_sum a f rest
  | None => True
  end.
Proof.
  induction head as [|next IH s lh]; [done|].
  simpl. destruct (decide (s = source)) as [->|Hs]; [done|].
  destruct (LLFIND_source source next) as [[[s0 lh0] rest]|]; simpl; [|done].
  lia.
Qed.

Lemma getLine_sum a f lh line :
  Line_sum a f (getLine lh line) =
  Line_sum a f lh + match Line_find line lh with Some _ => 0 | None => f 0 end.
Proof.
  unfold getLine.
  pose proof (LLFIND_line_sum a f line lh) as Hs.
  pose proof (LLFIND_line_find line lh) as Hf.
  destruct (LLFIND_line line lh) as [[[[l c] ch] rest]|].
  - destruct Hf as (_ & -> & _). simpl. lia.
  - rewrite Hf. simpl. lia.
Qed.

Lemma getSource_sum a f head source :
  Source_sum a f (getSource head source) =
  Source_sum a f head + match Source_find source head with Some _ => 0 | None => a end.
Proof.
  unfold getSource.
  pose proof (LLFIND_source_sum a f source head) as Hs.
  pose proof (LLFIND_source_find source head) as Hf.
  destruct (LLFIND_source source head) as [[[s lh] rest]|].
  - destruct Hf as (_ & -> & _). simpl. lia.
  - rewrite Hf. simpl. lia.
Qed.

Lemma find_or_create_sum a f key k fc fch head :
  writes_fields k fc fch →
  Source_sum a f (find_or_create key k head) =
    Source_sum a f head
    + match Source_find key.1 head with Some _ => 0 | None => a end
    + match node_find key head with Some _ => 0 | None => f 0 end
    + (f (fc (default (0, SNull) (node_find key head)).1)
       - f (default (0, SNull) (node_find key head)).1)
    + (Source_sum a f (fch (default (0, SNull) (node_find key head)).2)
       - Source_sum a f (default (0, SNull) (node_find key head)).2).
Proof.
  intros Hk. unfold find_or_create.
  pose proof (getSource_sum a f head key.1) as HS.
  destruct (getSource_spec head key.1) as (srest & Hg & _).
  rewrite Hg in *. simpl in HS. simpl.
  set (lh := default LNull (Source_find key.1 head)) in *.
  assert (Hnode : node_find key head = Line_find key.2 lh).
  { unfold node_find, lh. by destruct (Source_find key.1 head). }
  rewrite Hnode.
  pose proof (getLine_sum a f lh key.2) as HL.
  destruct (getLine_spec lh key.2) as (lrest & Hgl & _).
  rewrite Hgl in *. rewrite Hk. simpl in *. lia.
Qed.

Lemma recordSample_hits path : ∀ head,
  path ≠ [] →
  forest_hits (recordSample path head) =
  forest_hits head
  + (to_u64 (default 0 (count_at path head) + 1) - default 0 (count_at path head)).
Proof.
  unfold recordSample, forest_hits.
  induction path as [|key [|b rest] IH]; intros head Hne; [done| |].
  - cbn [record_with].
    rewrite (find_or_create_sum _ _ _ _ _ _ _ writes_fields_count_incr).
    rewrite count_at_cons. simpl.
    destruct (Source_find key.1 head), (node_find key head); simpl; lia.
  - change (record_with Line_count_incr (key :: b :: rest) head)
      with (find_or_create key
              (Line_callHead_upd (record_with Line_count_incr (b :: rest))) head).
    rewrite (find_or_create_sum _ _ _ _ _ _ _ (writes_fields_callHead_upd _)).
    rewrite count_at_cons_default by done.
    rewrite IH by done. simpl.
    destruct (Source_find key.1 head), (node_find key head); simpl; lia.
Qed.

Lemma recordSample_cells path : ∀ head,
  path ≠ [] →
  forest_cells head ≤ forest_cells (recordSample path head)
    ≤ forest_cells head + 2 * Z.of_nat (length path) ∧
  (is_Some (count_at path head) →
   forest_cells (recordSample path head) = forest_cells head).
Proof.
  unfold recordSample, forest_cells.
  induction path as [|key [|b rest] IH]; intros head Hne; [done| |].
  - cbn [record_with].
    rewrite (find_or_create_sum _ _ _ _ _ _ _ writes_fields_count_incr).
    rewrite count_at_cons. unfold node_find. simpl.
    destruct (Source_find key.1 head) as [lh|]; simpl.
    + destruct (Line_find key.2 lh); simpl; (split; [lia|]).
      * intros _. lia.
      * by intros [? [=]].
    + split; [lia|]. by intros [? [=]].
  - change (record_with Line_count_incr (key :: b :: rest) head)
      with (find_or_create key
              (Line_callHead_upd (record_with Line_count_incr (b :: rest))) head).
    rewrite (find_or_create_sum _ _ _ _ _ _ _ (writes_fields_callHead_upd _)).
    rewrite count_at_cons_default by done.
    destruct (IH (default (0, SNull) (node_find key head)).2) as [Hb Heq]; [done|].
    cbn [length] in *. unfold node_find in *. simpl.
    destruct (Source_find key.1 head) as [lh|]; simpl in *.
    + destruct (Line_find key.2 lh) as [[c ch]|]; simpl in *; (split; [lia|]).
      * intros Hsome. rewrite (Heq Hsome). lia.
      * rewrite count_at_SNull. by intros [? [=]].
    + split; [lia|]. rewrite count_at_SNull. by intros [? [=]].
Qed.

(** X17.  A sample allocates a node only for a part of its path that is not
    in the forest yet: sampling a stack whose path is in the forest allocates
    nothing, and a sample of a stack of [n] frames allocates at most [2 n]
    nodes (a source and a line for each frame); no node is freed. *)
Theorem getARLine_cells (above : list lua_Debug) (ar : lua_Debug) (head : Source) :
  forest_cells head ≤ forest_cells (getARLine above ar Line_count_incr head)
    ≤ forest_cells head + 2 * Z.of_nat (S (length above)) ∧
  (is_Some (count_at (stack_path above ar) head) →
   forest_cells (getARLine above ar Line_count_incr head) = forest_cells head).
Proof.
  rewrite getARLine_record_with.
  destruct (recordSample_cells (stack_path above ar) head
              (stack_path_nonempty above ar)) as [Hb Heq].
  unfold recordSample in *. split; [|done].
  unfold stack_path in Hb.
  rewrite length_app, length_reverse, length_fmap in Hb. simpl in Hb.
  unfold stack_path. lia.
Qed.

Lemma getARLine_cells_witness :
  forest_cells (getARLine [frame10] frame20 Line_count_incr SNull)
    ≤ forest_cells (getARLine [frame10] frame20 Line_count_incr
                      (getARLine [frame10] frame20 Line_count_incr SNull))
    ≤ forest_cells (getARLine [frame10] frame20 Line_count_incr SNull)
      + 2 * Z.of_nat (S (length [frame10])) ∧
  (is_Some (count_at (stack_path [frame10] frame20)
              (getARLine [frame10] frame20 Line_count_incr SNull)) →
   forest_cells (getARLine [frame10] frame20 Line_count_incr
                   (getARLine [frame10] frame20 Line_count_incr SNull))
   = forest_cells (getARLine [frame10] frame20 Line_count_incr SNull)).
Proof.
  exact (getARLine_cells [frame10] frame20
           (getARLine [frame10] frame20 Line_count_incr SNull)).
Defined.

Lemma all_impl (P Q : Z → Prop) :
  (∀ c, P c → Q c) →
  (∀ line, Line_all P line → Line_all Q line) ∧
  (∀ source, Source_all P source → Source_all Q source).
Proof.
  intros HPQ. apply forest_ind; simpl; try done.
  - intros next IHn l c ch IHc (Hc & Hch & Hn). auto.
  - intros next IHn s lh IHl (Hl & Hn). auto.
Qed.

Lemma LLFIND_line_all P line head :
  Line_all P head →
  match LLFIND_line line head with
  | Some (l, c, ch, rest) => P c ∧ Source_all P ch ∧ Line_all P rest
  | None => True
  end.
Proof.
  induction head as [|next IH l c ch]; [done|].
  simpl. intros (Hc & Hch & Hn).
  destruct (decide (l = line)) as [->|Hl]; [done|].
  specialize (IH Hn).
  destruct (LLFIND_line line next) as [[[[l0 c0] ch0] rest]|]; simpl; [|done].
  destruct IH as (? & ? & ?). done.
Qed.

Lemma LLFIND_source_all P source head :
  Source_all P head →
  match LLFIND_source source head with
  | Some (s, lh, rest) => Line_all P lh ∧ Source_all P rest
  | None => True
  end.
Proof.
  induction head as [|next IH s lh]; [done|].
  simpl. intros (Hl & Hn).
  destruct (decide (s = source)) as [->|Hs]; [done|].
  specialize (IH Hn).
  destruct (LLFIND_source source next) as [[[s0 lh0] rest]|]; simpl; [|done].
  destruct IH as (? & ?). done.
Qed.

Lemma find_or_create_all (P Q : Z → Prop) key k fc fch head :
  writes_fields k fc fch →
  (∀ c, P c → Q c) →
  Source_all P head →
  (∀ c ch, node_find key head = Some (c, ch) → P c → Source_all P ch →
           Q (fc c) ∧ Source_all Q (fch ch)) →
  (node_find key head = None → Q (fc 0) ∧ Source_all Q (fch SNull)) →
  Source_all Q (find_or_create key k head).
Proof.
  intros Hk HPQ Hall Hsome Hnone.
  destruct (all_impl P Q HPQ) as [HL HS].
  unfold find_or_create, getSource, node_find in *.
  pose proof (LLFIND_source_find key.1 head) as Hsf.
  pose proof (LLFIND_source_all P key.1 head Hall) as Hsa.
  destruct (LLFIND_source key.1 head) as [[[s lh] rest]|].
  - destruct Hsf as (-> & Hfind & _). destruct Hsa as (Hlh & Hrest).
    rewrite Hfind in *. simpl in *. split; [|by apply HS].
    unfold getLine.
    pose proof (LLFIND_line_find key.2 lh) as Hlf.
    pose proof (LLFIND_line_all P key.2 lh Hlh) as Hla.
    destruct (LLFIND_line key.2 lh) as [[[[l c] ch] lrest]|].
    + destruct Hlf as (-> & Hlfind & _). destruct Hla as (Hc & Hch & Hlrest).
      rewrite Hk. simpl.
      destruct (Hsome c ch Hlfind Hc Hch) as [? ?]. split_and!; [done|done|].
      by apply HL.
    + rewrite Hk. simpl. destruct (Hnone Hlf) as [? ?].
      split_and!; [done|done|]. by apply HL.
  - rewrite Hsf in *. simpl in *. unfold getLine. simpl. rewrite Hk. simpl.
    destruct (Hnone eq_refl) as [? ?]. split_and!; [done|done|done|].
    by apply HS.
Qed.

Lemma node_find_all P key head c ch :
  Source_all P head → node_find key head = Some (c, ch) → P c ∧ Source_all P ch.
Proof.
  unfold node_find. intros Hall Hfind.
  destruct (Source_find key.1 head) as [lh|] eqn:Hs; [|done]. simpl in Hfind.
  assert (Hlh : Line_all P lh).
  { clear Hfind. induction head as [|next IH s lh']; [done|].
    simpl in *. destruct Hall as [Hl Hn].
    destruct (decide (s = key.1)); [by injection Hs as <-|]. by apply IH. }
  clear Hs Hall. induction lh as [|next IH l c' ch']; [done|].
  simpl in *. destruct Hlh as (Hc & Hch & Hn).
  destruct (decide (l = key.2)); [by injection Hfind as <- <-|]. by apply IH.
Qed.

Lemma count_at_all P path : ∀ head c,
  Source_all P head → count_at path head = Some c → P c.
Proof.
  induction path as [|key [|b rest] IH]; intros head c Hall Hc; [done| |].
  - rewrite count_at_cons in Hc.
    destruct (node_find key head) as [[c0 ch0]|] eqn:Hf; [|done].
    simpl in Hc. injection Hc as <-. by destruct (node_find_all P _ _ _ _ Hall Hf).
  - rewrite count_at_cons in Hc.
    destruct (node_find key head) as [[c0 ch0]|] eqn:Hf; [|done].
    simpl in Hc. destruct (node_find_all P _ _ _ _ Hall Hf) as [_ Hch].
    by eapply IH.
Qed.

Lemma recordSample_all n path : ∀ head,
  path ≠ [] → 0 ≤ n → n + 1 < 2 ^ 64 →
  Source_all (λ c, 0 ≤ c ≤ n) head →
  Source_all (λ c, 0 ≤ c ≤ n + 1) (recordSample path head).
Proof.
  unfold recordSample.
  assert (HPQ : ∀ c, 0 ≤ c ≤ n → 0 ≤ c ≤ n + 1) by lia.
  induction path as [|key [|b rest] IH]; intros head Hne Hn Hlt Hall; [done| |].
  - cbn [record_with].
    eapply (find_or_create_all _ _ _ _ _ _ _ writes_fields_count_incr HPQ Hall).
    + intros c ch _ Hc Hch. rewrite to_u64_small by lia.
      split; [lia|]. by apply (all_impl _ _ HPQ).
    + intros _. rewrite to_u64_small by lia. split; [lia|done].
  - change (record_with Line_count_incr (key :: b :: rest) head)
      with (find_or_create key
              (Line_callHead_upd (record_with Line_count_incr (b :: rest))) head).
    eapply (find_or_create_all _ _ _ _ _ _ _ (writes_fields_callHead_upd _) HPQ Hall).
    + intros c ch _ Hc Hch. split; [simpl; lia|]. by apply IH.
    + intros _. split; [simpl; lia|]. by apply IH.
Qed.

Lemma Z_sum_app l1 l2 : Z_sum (l1 ++ l2) = Z_sum l1 + Z_sum l2.
Proof.
  unfold Z_sum. induction l1 as [|x l1 IH]; simpl; [done|]. rewrite IH. lia.
Qed.

Lemma paths_hits :
  (∀ line pre src, Z_sum (Line_paths pre src line).*2 = Line_sum 0 (λ c, c) line) ∧
  (∀ source pre, Z_sum (Source_paths pre source).*2 = Source_sum 0 (λ c, c) source).
Proof.
  apply forest_ind; try done.
  - intros next IHn l c ch IHc pre src. cbn [Line_paths Line_sum].
    rewrite fmap_app, Z_sum_app, fmap_cons. cbn [snd].
    change (Z_sum (c :: ?l)) with (c + Z_sum l).
    rewrite IHc, IHn. lia.
  - intros next IHn s lh IHl pre. cbn [Source_paths Source_sum].
    rewrite fmap_app, Z_sum_app, IHl, IHn. lia.
Qed.

Lemma count_hooks_hits hs : ∀ s n,
  IPMS_inv (gIPMS s) → 0 ≤ n →
  Source_all (λ c, 0 ≤ c ≤ n) (gSourceHead s) →
  forest_hits (gSourceHead s) = n →
  n + Z.of_nat (length hs) < 2 ^ 64 →
  ∃ s', count_hooks hs s = Some s' ∧
        forest_hits (gSourceHead s') = n + Z.of_nat (length hs).
Proof.
  induction hs as [|[[[above ar] cur] t_end] hs IH];
    intros s n Hinv Hn Hall Hhits Hlt.
  - exists s. split; [done|]. simpl. lia.
  - cbn [length] in Hlt.
    destruct (countHook_spec above ar cur t_end s Hinv)
      as (w & med & _ & Hinv' & Hrun).
    cbn [count_hooks hook]. rewrite Hrun. bind_step.
    match goal with |- context [count_hooks hs ?s1] =>
      destruct (IH s1 (n + 1)) as (s' & Hrun' & Hhits') end;
      cbn [gIPMS gSourceHead].
    + done.
    + lia.
    + rewrite getARLine_record_with.
      apply (recordSample_all n); [apply stack_path_nonempty|lia|lia|done].
    + rewrite getARLine_record_with.
      pose proof (recordSample_hits (stack_path above ar) (gSourceHead s)
                    (stack_path_nonempty above ar)) as Hh.
      unfold recordSample in Hh. rewrite Hh, Hhits.
      assert (0 ≤ default 0 (count_at (stack_path above ar) (gSourceHead s)) ≤ n).
      { destruct (count_at _ _) as [c|] eqn:Hc; simpl; [|lia].
        by apply (count_at_all _ _ _ _ Hall Hc). }
      rewrite to_u64_small by lia. lia.
    + lia.
    + exists s'. split; [done|]. rewrite Hhits'. cbn [length]. lia.
Qed.

(** X18.  Every sample is counted once: after any run of count hooks on a
    fresh profiler, whatever their stacks and times, the hit counts of the
    forest add up to the number of hooks, and so do the counts that the
    report prints (for fewer than [2^64] hooks, the counts being
    [uint64_t]). *)
Theorem count_hooks_total (t0 : Z) (hs : list (list lua_Debug * lua_Debug * Z * Z)) :
  Z.of_nat (length hs) < 2 ^ 64 →
  ∃ s, count_hooks hs (countprof_start t0 state_init) = Some s ∧
       forest_hits (gSourceHead s) = Z.of_nat (length hs) ∧
       Z_sum (Source_paths [] (gSourceHead s)).*2 = Z.of_nat (length hs).
Proof.
  intros Hlt.
  destruct (count_hooks_hits hs (countprof_start t0 state_init) 0)
    as (s & Hrun & Hhits); [apply IPMS_init_inv|done|done|done|lia|].
  exists s. split_and!; [done|lia|].
  rewrite (proj2 paths_hits). unfold forest_hits in Hhits. lia.
Qed.

Lemma count_hooks_total_witness :
  ∃ s, count_hooks [([frame10], frame20, 3, 4); ([], frame10, 9, 10);
                    ([frame10], frame20, 20, 21)]
         (countprof_start 0 state_init) = Some s ∧
       forest_hits (gSourceHead s) = Z.of_nat 3 ∧
       Z_sum (Source_paths [] (gSourceHead s)).*2 = Z.of_nat 3.
Proof.
  apply (count_hooks_total 0 [([frame10], frame20, 3, 4); ([], frame10, 9, 10);
                              ([frame10], frame20, 20, 21)]).
  simpl. lia.
Defined.

(** ** The counts after a run *)

Lemma count_hooks_app hs1 : ∀ hs2 s,
  count_hooks (hs1 ++ hs2) s = count_hooks hs1 s ≫= count_hooks hs2.
Proof.
  induction hs1 as [|[[[above ar] cur] t_end] hs1 IH]; intros hs2 s; [done|].
  cbn [app count_hooks].
  destruct (hook LUA_HOOKCOUNT above ar cur t_end s) as [s'|]; [|done].
  bind_step. apply IH.
Qed.

Lemma no_prefix_no_equal (q : list FrameKey)
    (hs : list (list lua_Debug * lua_Debug * Z * Z)) :
  ¬ Exists (λ h, q `prefix_of` hook_path h) hs →
  filter (λ h, hook_path h = q) hs = [].
Proof.
  intros Hno. induction hs as [|h hs IH]; [done|].
  rewrite filter_cons_False.
  - apply IH. intros H. apply Hno. by right.
  - intros Heq. apply Hno. left. by rewrite Heq.
Qed.

Lemma count_hooks_counts_inv hs :
  Z.of_nat (length hs) < 2 ^ 64 → ∀ t0,
  ∃ s, count_hooks hs (countprof_start t0 state_init) = Some s ∧
       IPMS_inv (gIPMS s) ∧
       ∀ q, count_at q (gSourceHead s) =
         if decide (q ≠ [] ∧ Exists (λ h, q `prefix_of` hook_path h) hs)
         then Some (Z.of_nat (length (filter (λ h, hook_path h = q) hs)))
         else None.
Proof.
  induction hs as [|[[[above ar] cur] t_end] hs IH] using rev_ind; intros Hlt t0.
  - exists (countprof_start t0 state_init).
    split_and!; [done|apply IPMS_init_inv|].
    intros q. rewrite decide_False; [apply count_at_SNull|].
    intros [_ H]. by apply Exists_nil in H.
  - rewrite length_app in Hlt. cbn [length] in Hlt.
    destruct (IH ltac:(lia) t0) as (s1 & Hrun1 & Hinv1 & Hcount1).
    destruct (countHook_spec above ar cur t_end s1 Hinv1)
      as (w & med & _ & Hinv2 & Hrun2).
    eexists. split_and!.
    + rewrite count_hooks_app, Hrun1. bind_step.
      cbn [count_hooks hook]. rewrite Hrun2. done.
    + done.
    + intros q. cbn [gSourceHead]. rewrite count_at_getARLine, Hcount1.
      set (h := (above, ar, cur, t_end)).
      change (stack_path above ar) with (hook_path h).
      pose proof (stack_path_nonempty above ar) as Hne.
      change (stack_path above ar) with (hook_path h) in Hne.
      pose proof (length_filter (λ h', hook_path h' = q) hs) as Hle.
      pose proof (no_prefix_no_equal q hs) as Hnone.
      assert (HE : Exists (λ h', q `prefix_of` hook_path h') (hs ++ [h]) ↔
                   Exists (λ h', q `prefix_of` hook_path h') hs ∨
                   q `prefix_of` hook_path h).
      { rewrite Exists_app, Exists_cons, Exists_nil. naive_solver. }
      rewrite list.filter_app, length_app.
      destruct (decide (q = hook_path h)) as [Heq|Hneq].
      * rewrite filter_cons_True by done.
        rewrite (decide_True (P := _ ∧ Exists _ (_ ++ _)))
          by (rewrite HE; subst q; naive_solver).
        f_equal. case_decide as HE1; simpl.
        -- rewrite to_u64_small by lia. lia.
        -- rewrite Hnone by naive_solver. simpl. by rewrite to_u64_small by lia.
      * rewrite filter_cons_False by done. simpl. rewrite Nat.add_0_r.
        destruct (decide (q ≠ [] ∧ q `prefix_of` hook_path h)) as [Hp|Hp].
        -- rewrite (decide_True (P := _ ∧ Exists _ (_ ++ _)))
             by (rewrite HE; naive_solver).
           f_equal. case_decide as HE1; simpl; [done|].
           by rewrite Hnone by naive_solver.
        -- case_decide as HE1.
           ++ by rewrite decide_True by (rewrite HE; naive_solver).
           ++ by rewrite decide_False by (rewrite HE; naive_solver).
Qed.

(** X19.  The counts of the forest are exact: after any run of count hooks
    on a fresh profiler (fewer than [2^64] of them), a path names a node
    exactly when it is a non-empty prefix of the path of one of the sampled
    stacks, and the count of the node is the number of hooks whose whole
    stack is that path. *)
Theorem count_hooks_counts (t0 : Z) (hs : list (list lua_Debug * lua_Debug * Z * Z)) :
  Z.of_nat (length hs) < 2 ^ 64 →
  ∃ s, count_hooks hs (countprof_start t0 state_init) = Some s ∧
       ∀ q, count_at q (gSourceHead s) =
         if decide (q ≠ [] ∧ Exists (λ h, q `prefix_of` hook_path h) hs)
         then Some (Z.of_nat (length (filter (λ h, hook_path h = q) hs)))
         else None.
Proof.
  intros Hlt.
  destruct (count_hooks_counts_inv hs Hlt t0) as (s & Hrun & _ & Hc).
  by exists s.
Qed.

Lemma count_hooks_counts_witness :
  ∃ s, count_hooks [([frame10], frame20, 3, 4); ([], frame10, 9, 10);
                    ([frame10], frame20, 20, 21)]
         (countprof_start 0 state_init) = Some s ∧
       ∀ q, count_at q (gSourceHead s) =
         if decide (q ≠ [] ∧ Exists (λ h, q `prefix_of` hook_path h)
                                [([frame10], frame20, 3, 4); ([], frame10, 9, 10);
                                 ([frame10], frame20, 20, 21)])
         then Some (Z.of_nat (length (filter (λ h, hook_path h = q)
                                [([frame10], frame20, 3, 4); ([], frame10, 9, 10);
                                 ([frame10], frame20, 20, 21)])))
         else None.
Proof.
  apply (count_hooks_counts 0 [([frame10], frame20, 3, 4); ([], frame10, 9, 10);
                               ([frame10], frame20, 20, 21)]).
  simpl. lia.
Defined.

(** ** The order of the report *)

Lemma record_with_paths_head k fc fch path :
  writes_fields k fc fch → ∀ pre head,
  path ≠ [] →
  ∃ tail,
    Source_paths pre (record_with k path head) =
    Source_paths (pre ++ path) (fch (default (0, SNull) (node_at path head)).2)
    ++ (pre ++ path, fc (default (0, SNull) (node_at path head)).1) :: tail.
Proof.
  intros Hk. revert k fc fch Hk.
  induction path as [|key [|b rest] IH]; intros k fc fch Hk pre head Hne; [done| |].
  - cbn [record_with].
    destruct (find_or_create_spec key k fc fch head Hk) as (srest & lrest & -> & _).
    assert (Hn : node_at [key] head = node_find key head).
    { cbn [node_at]. by destruct (node_find key head). }
    rewrite Hn. destruct key as [s l]. cbn [Source_paths Line_paths fst snd].
    eexists. by rewrite <- (assoc_L (++)).
  - change (record_with k (key :: b :: rest) head)
      with (find_or_create key (Line_callHead_upd (record_with k (b :: rest))) head).
    destruct (find_or_create_spec key _ _ _ head (writes_fields_callHead_upd
                (record_with k (b :: rest)))) as (srest & lrest & -> & _).
    rewrite node_at_cons.
    set (ch0 := (default (0, SNull) (node_find key head)).2).
    destruct (IH k fc fch Hk (pre ++ [key]) ch0) as (tail & Htail); [done|].
    destruct key as [s l]. cbn [Source_paths Line_paths fst snd].
    eexists.
    etrans; [apply (f_equal (λ x, (x ++ _) ++ _)); exact Htail|].
    rewrite <- !(assoc_L (++)). simpl. reflexivity.
Qed.

(** X20.  The report starts with the stack sampled last: after a sample,
    [dumpSources] first writes the lines of the nodes under the node of the
    sampled stack, then the line of that node with its new count, then the
    rest; when the node has no children its line is the first of the
    report. *)
Theorem dumpSources_most_recent_first (cstr : ptr → string)
    (above : list lua_Debug) (ar : lua_Debug) (head : Source) :
  ∃ rest,
    dumpSources cstr (getARLine above ar Line_count_incr head) StNull =
    str_concat (report_line cstr <$>
                  Source_paths (stack_path above ar)
                    (default (0, SNull) (node_at (stack_path above ar) head)).2)
    +:+ report_line cstr
          (stack_path above ar,
           to_u64 ((default (0, SNull) (node_at (stack_path above ar) head)).1 + 1))
    +:+ rest.
Proof.
  rewrite (proj2 (dump_spec cstr)), getARLine_record_with.
  destruct (record_with_paths_head _ _ _ (stack_path above ar)
              writes_fields_count_incr [] head (stack_path_nonempty above ar))
    as (tail & Htail).
  exists (str_concat (report_line cstr <$> tail)).
  cbn [Stack_keys]. rewrite Htail. cbn [app].
  rewrite fmap_app, str_concat_app, fmap_cons. done.
Qed.

Example dumpSources_most_recent_first_ex :
  dumpSources mod_lua
    (getARLine [] frame10 Line_count_incr
       (getARLine [frame10] frame20 Line_count_incr SNull)) StNull =
  "mod.lua:10;mod.lua:20 1" +:+ nl +:+ "mod.lua:10 1" +:+ nl.
Proof. by vm_compute. Qed.

(** ** The call hook *)

(** X21.  [callHook] (compiled in when [CALLCHECK] is set) leaves everything
    as it is while no more than 10 milliseconds have passed since
    [gLastTime], and otherwise does what the count hook does; the difference
    being unsigned, a clock that has stepped back counts as expired. *)
Theorem callHook_threshold (above : list lua_Debug) (ar : lua_Debug)
    (cur t_end : Z) (s : state) :
  0 ≤ cur < 2 ^ 63 → 0 ≤ gLastTime s < 2 ^ 63 →
  callHook above ar cur t_end s =
    if decide (gLastTime s ≤ cur ≤ gLastTime s + 10000) then Some s
    else countHook above ar cur t_end s.
Proof.
  intros Hc Hl. unfold callHook, to_u64.
  destruct (decide (gLastTime s ≤ cur)) as [Hle|Hgt].
  - rewrite Z.mod_small by lia. repeat case_decide; try done; lia.
  - replace (cur - gLastTime s)
      with (2 ^ 64 - (gLastTime s - cur) + -1 * 2 ^ 64) by lia.
    rewrite Z_mod_plus_full, Z.mod_small by lia.
    repeat case_decide; try done; lia.
Qed.

Lemma callHook_threshold_witness :
  callHook [frame10] frame20 5 6 (countprof_start 10 state_init) =
    if decide (gLastTime (countprof_start 10 state_init) ≤ 5
               ≤ gLastTime (countprof_start 10 state_init) + 10000)
    then Some (countprof_start 10 state_init)
    else countHook [frame10] frame20 5 6 (countprof_start 10 state_init).
Proof.
  apply (callHook_threshold [frame10] frame20 5 6 (countprof_start 10 state_init));
    simpl; lia.
Defined.

(** ** Stop, dump and start again *)

Example state_sampled_run :
  interrupts every_100us [frame10] frame20 (countprof_start 0 state_init)
  = Some state_sampled.
Proof. reflexivity. Qed.

Lemma state_sampled_inv : IPMS_inv (gIPMS state_sampled).
Proof.
  destruct (interrupts_spec [frame10] frame20 every_100us
              (countprof_start 0 state_init) IPMS_init_inv) as (s & Hrun & Hinv & _).
  rewrite state_sampled_run in Hrun. by injection Hrun as <-.
Qed.

(** C9.  [countprof_stop] and [countprof_dump] leave [gSourceHead] as it is,
    with every node, count and child of it: every path names after a stop
    and a dump the count it named before, and a dump after them writes what
    a dump before them writes.  A count hook that fires after a stop, a dump
    and a new start records its stack in that forest: every node that was
    there is there with its count, one more for the node of the sampled
    stack, whose count is one more than it was (1 when it is new). *)
Theorem countprof_stop_dump_keep_forest (cstr : ptr → string) (pid t : Z)
    (above : list lua_Debug) (ar : lua_Debug) (cur t_end : Z) (s : state) :
  IPMS_inv (gIPMS s) →
  gSourceHead (countprof_stop s) = gSourceHead s ∧
  gSourceHead (countprof_dump cstr pid s).1 = gSourceHead s ∧
  (∀ q, count_at q (gSourceHead (countprof_dump cstr pid (countprof_stop s)).1)
        = count_at q (gSourceHead s)) ∧
  (countprof_dump cstr pid (countprof_dump cstr pid (countprof_stop s)).1).2.2
    = (countprof_dump cstr pid s).2.2 ∧
  ∃ s',
    countHook above ar cur t_end
      (countprof_start t (countprof_dump cstr pid (countprof_stop s)).1) = Some s' ∧
    gSourceHead s' = getARLine above ar Line_count_incr (gSourceHead s) ∧
    (∀ q c, count_at q (gSourceHead s) = Some c →
       count_at q (gSourceHead s') =
         Some (if decide (q = stack_path above ar) then to_u64 (c + 1) else c)) ∧
    count_at (stack_path above ar) (gSourceHead s') =
      Some (to_u64 (default 0 (count_at (stack_path above ar) (gSourceHead s)) + 1)).
Proof.
  intros Hinv. split_and!; [done|done|done|done|].
  destruct (countHook_spec above ar cur t_end
              (countprof_start t (countprof_dump cstr pid (countprof_stop s)).1) Hinv)
    as (w & med & _ & _ & ->).
  eexists. split; [done|]. cbn [gSourceHead countprof_start countprof_dump
                                 countprof_stop fst].
  split_and!; [done| |].
  - intros q c Hc. rewrite count_at_getARLine, Hc. simpl.
    repeat case_decide; done.
  - rewrite count_at_getARLine. by rewrite decide_True.
Qed.

Lemma countprof_stop_dump_keep_forest_witness :
  gSourceHead (countprof_stop state_sampled) = gSourceHead state_sampled ∧
  gSourceHead (countprof_dump mod_lua 77 state_sampled).1 = gSourceHead state_sampled ∧
  (∀ q, count_at q
          (gSourceHead (countprof_dump mod_lua 77 (countprof_stop state_sampled)).1)
        = count_at q (gSourceHead state_sampled)) ∧
  (countprof_dump mod_lua 77
     (countprof_dump mod_lua 77 (countprof_stop state_sampled)).1).2.2
    = (countprof_dump mod_lua 77 state_sampled).2.2 ∧
  ∃ s',
    countHook [frame10] frame20 900 901
      (countprof_start 800 (countprof_dump mod_lua 77 (countprof_stop state_sampled)).1)
      = Some s' ∧
    gSourceHead s' =
      getARLine [frame10] frame20 Line_count_incr (gSourceHead state_sampled) ∧
    (∀ q c, count_at q (gSourceHead state_sampled) = Some c →
       count_at q (gSourceHead s') =
         Some (if decide (q = stack_path [frame10] frame20)
               then to_u64 (c + 1) else c)) ∧
    count_at (stack_path [frame10] frame20) (gSourceHead s') =
      Some (to_u64 (default 0 (count_at (stack_path [frame10] frame20)
                                 (gSourceHead state_sampled)) + 1)).
Proof.
  apply (countprof_stop_dump_keep_forest mod_lua 77 800 [frame10] frame20 900 901
           state_sampled).
  apply state_sampled_inv.
Defined.

(** The same on the state with nodes, evaluated: the forest and the text of
    the dump are kept, and the next sample makes the 5 hits 6. *)
Example countprof_stop_dump_keep_forest_ex :
  let s1 := (countprof_dump mod_lua 77 (countprof_stop state_sampled)).1 in
  count_at [(4096, 10); (4096, 20)] (gSourceHead s1) = Some 5 ∧
  count_at [(4096, 10)] (gSourceHead s1) = Some 0 ∧
  (countprof_dump mod_lua 77 s1).2.2 =
    "mod.lua:10;mod.lua:20 5" +:+ nl +:+ "mod.lua:10 0" +:+ nl ∧
  (gSourceHead <$> countHook [frame10] frame20 900 901 (countprof_start 800 s1)) =
    Some (SCons SNull 4096
            (LCons LNull 10 0 (SCons SNull 4096 (LCons LNull 20 6 SNull)))) ∧
  ((λ s2, (countprof_dump mod_lua 77 s2).2.2) <$>
     countHook [frame10] frame20 900 901 (countprof_start 800 s1)) =
    Some ("mod.lua:10;mod.lua:20 6" +:+ nl +:+ "mod.lua:10 0" +:+ nl).
Proof. by vm_compute. Qed.
